(** * scf_log: the asynchronous batching log producer

    A shallow embedding of [scf_log/producer.py] (with the numeric part of
    [scf_log/config.py]) and the properties of its buffer, its dispatcher and
    its lifecycle.

    Modelling choices.
    - Python [int] is [Z]; [len] yields a [nat] injected into [Z].
    - Python [str] is a sequence of Unicode code points, so [len] counts code
      points.  SDK error codes are ASCII identifiers and are kept as [string].
    - [dict[str, str]] keeps insertion order: an association list.
    - The producer object, the two clocks and the remote sink's history form
      one state record that every method threads through; a method returns
      an [outcome]: a value, an exception, or "still blocked".
    - The sink ([LogClient.put_log_raw]) is an oracle: the outcome of the
      n-th call.  What other threads do while a caller sits in
      [Condition.wait] is an oracle too (a list of wake-ups).
    - The flush thread runs between the caller's operations: a pass of its
      loop as a whole, or its two halves (it takes the buffer; it delivers
      what it took) with other operations in between.  The entries it holds
      meanwhile are part of the state. *)

From Stdlib Require Import ZArith Bool String List Lia Permutation.
Import ListNotations.
Local Open Scope Z_scope.

(** ** Python values *)

(** A Python [str]: its code points. *)
Definition str := list N.

Definition len {A : Type} (l : list A) : Z := Z.of_nat (List.length l).




(** Exceptions that escape the producer's own [try] blocks. *)
Inductive exn : Type :=
| ValueError.

Inductive result (A : Type) : Type :=
| Ok (a : A)
| Raise (e : exn).
Arguments Ok {A} a.
Arguments Raise {A} e.

(** [range(start, stop, step)]: a zero step raises [ValueError]. *)
Definition range_count (start stop step : Z) : nat :=
  if 0 <? step then Z.to_nat ((stop - start + step - 1) / step)
  else Z.to_nat ((start - stop + (- step) - 1) / (- step)).

Definition range (start stop step : Z) : result (list Z) :=
  if step =? 0 then Raise ValueError
  else Ok (map (fun k => start + Z.of_nat k * step)
               (seq 0 (range_count start stop step))).

(** [l[i:j]] for [0 <= i <= j]. *)
Definition slice {A : Type} (l : list A) (i j : Z) : list A :=
  firstn (Z.to_nat (j - i)) (skipn (Z.to_nat i) l).

(** ** config.py *)

Record CLSConfig : Type := {
  total_size_bytes : Z;
  max_send_workers : Z;
  max_block_sec : Z;
  max_batch_size : Z;
  max_batch_count : Z;
  linger_ms : Z;
  retries : Z;
  base_retry_backoff_ms : Z;
  max_retry_backoff_ms : Z
}.

(** The dataclass defaults. *)
Definition default_config : CLSConfig := {|
  total_size_bytes := 104857600;
  max_send_workers := 50;
  max_block_sec := 0;
  max_batch_size := 5242880;
  max_batch_count := 4096;
  linger_ms := 2000;
  retries := 10;
  base_retry_backoff_ms := 100;
  max_retry_backoff_ms := 50000
|}.

(** ** producer.py: LogEntry *)

Record LogEntry : Type := {
  timestamp_us : Z;
  fields : list (str * str);
  size : Z
}.

(** [sum(len(k) + len(v) for k, v in fields.items())] *)
Definition fields_size (fs : list (str * str)) : Z :=
  fold_right (fun kv acc => len (fst kv) + len (snd kv) + acc) 0 fs.

(** The dataclass constructor followed by [__post_init__]; [sz] is the
    [size] argument, [0] when omitted. *)
Definition LogEntry_init (ts : Z) (fs : list (str * str)) (sz : Z) : LogEntry :=
  {| timestamp_us := ts;
     fields := fs;
     size := if sz =? 0 then fields_size fs else sz |}.


(** ** producer.py: ProducerStats *)

Record ProducerStats : Type := {
  send_success : Z;
  send_fail : Z;
  log_count : Z;
  drop_count : Z
}.

Definition ProducerStats_init : ProducerStats :=
  {| send_success := 0; send_fail := 0; log_count := 0; drop_count := 0 |}.

Definition incr_success (s : ProducerStats) : ProducerStats :=
  {| send_success := send_success s + 1; send_fail := send_fail s;
     log_count := log_count s; drop_count := drop_count s |}.

Definition incr_fail (s : ProducerStats) : ProducerStats :=
  {| send_success := send_success s; send_fail := send_fail s + 1;
     log_count := log_count s; drop_count := drop_count s |}.

Definition incr_logs (n : Z) (s : ProducerStats) : ProducerStats :=
  {| send_success := send_success s; send_fail := send_fail s;
     log_count := log_count s + n; drop_count := drop_count s |}.

Definition incr_drop (n : Z) (s : ProducerStats) : ProducerStats :=
  {| send_success := send_success s; send_fail := send_fail s;
     log_count := log_count s; drop_count := drop_count s + n |}.

(** ** The sink *)

(** What one call of [put_log_raw] does: it returns, raises a
    [LogException] (of which the code reads [get_error_code()] and
    [resp_status], each guarded by [hasattr]), or raises something else. *)
Inductive put_result : Type :=
| PutOk
| PutLogException (get_error_code : option string) (resp_status : option Z)
| PutException.

(** ** producer.py: AsyncProducer *)

Record AsyncProducer : Type := {
  _buffer : list LogEntry;
  _buffer_size : Z;
  _closed : bool;
  _stats : ProducerStats;
  (** readings of [time.monotonic()] and [time.time()], in microseconds *)
  monotonic_us : Z;
  time_us : Z;
  (** history: the chunk of every [put_log_raw] call, the chunks the sink
      accepted, the arguments of [time.sleep] (milliseconds) and the number
      of [_not_empty.notify()] calls; oldest first *)
  put_calls : list (list LogEntry);
  delivered : list (list LogEntry);
  slept_ms : list Z;
  flush_notified : Z;
  (** the local [entries] of [_flush_loop]: what the flush thread has taken
      from the buffer and is still delivering *)
  in_flight : list LogEntry
}.

(** Field updates. *)
Definition set_buffer (b : list LogEntry) (p : AsyncProducer) : AsyncProducer :=
  {| _buffer := b; _buffer_size := _buffer_size p; _closed := _closed p;
     _stats := _stats p; monotonic_us := monotonic_us p; time_us := time_us p;
     put_calls := put_calls p; delivered := delivered p;
     slept_ms := slept_ms p; flush_notified := flush_notified p;
     in_flight := in_flight p |}.

Definition set_buffer_size (n : Z) (p : AsyncProducer) : AsyncProducer :=
  {| _buffer := _buffer p; _buffer_size := n; _closed := _closed p;
     _stats := _stats p; monotonic_us := monotonic_us p; time_us := time_us p;
     put_calls := put_calls p; delivered := delivered p;
     slept_ms := slept_ms p; flush_notified := flush_notified p;
     in_flight := in_flight p |}.

Definition set_closed (b : bool) (p : AsyncProducer) : AsyncProducer :=
  {| _buffer := _buffer p; _buffer_size := _buffer_size p; _closed := b;
     _stats := _stats p; monotonic_us := monotonic_us p; time_us := time_us p;
     put_calls := put_calls p; delivered := delivered p;
     slept_ms := slept_ms p; flush_notified := flush_notified p;
     in_flight := in_flight p |}.

Definition set_stats (s : ProducerStats) (p : AsyncProducer) : AsyncProducer :=
  {| _buffer := _buffer p; _buffer_size := _buffer_size p; _closed := _closed p;
     _stats := s; monotonic_us := monotonic_us p; time_us := time_us p;
     put_calls := put_calls p; delivered := delivered p;
     slept_ms := slept_ms p; flush_notified := flush_notified p;
     in_flight := in_flight p |}.

Definition set_monotonic (t : Z) (p : AsyncProducer) : AsyncProducer :=
  {| _buffer := _buffer p; _buffer_size := _buffer_size p; _closed := _closed p;
     _stats := _stats p; monotonic_us := t; time_us := time_us p;
     put_calls := put_calls p; delivered := delivered p;
     slept_ms := slept_ms p; flush_notified := flush_notified p;
     in_flight := in_flight p |}.

Definition set_put_calls (l : list (list LogEntry)) (p : AsyncProducer) : AsyncProducer :=
  {| _buffer := _buffer p; _buffer_size := _buffer_size p; _closed := _closed p;
     _stats := _stats p; monotonic_us := monotonic_us p; time_us := time_us p;
     put_calls := l; delivered := delivered p;
     slept_ms := slept_ms p; flush_notified := flush_notified p;
     in_flight := in_flight p |}.

Definition set_delivered (l : list (list LogEntry)) (p : AsyncProducer) : AsyncProducer :=
  {| _buffer := _buffer p; _buffer_size := _buffer_size p; _closed := _closed p;
     _stats := _stats p; monotonic_us := monotonic_us p; time_us := time_us p;
     put_calls := put_calls p; delivered := l;
     slept_ms := slept_ms p; flush_notified := flush_notified p;
     in_flight := in_flight p |}.

Definition set_slept_ms (l : list Z) (p : AsyncProducer) : AsyncProducer :=
  {| _buffer := _buffer p; _buffer_size := _buffer_size p; _closed := _closed p;
     _stats := _stats p; monotonic_us := monotonic_us p; time_us := time_us p;
     put_calls := put_calls p; delivered := delivered p;
     slept_ms := l; flush_notified := flush_notified p;
     in_flight := in_flight p |}.

Definition set_flush_notified (n : Z) (p : AsyncProducer) : AsyncProducer :=
  {| _buffer := _buffer p; _buffer_size := _buffer_size p; _closed := _closed p;
     _stats := _stats p; monotonic_us := monotonic_us p; time_us := time_us p;
     put_calls := put_calls p; delivered := delivered p;
     slept_ms := slept_ms p; flush_notified := n;
     in_flight := in_flight p |}.

Definition set_in_flight (l : list LogEntry) (p : AsyncProducer) : AsyncProducer :=
  {| _buffer := _buffer p; _buffer_size := _buffer_size p; _closed := _closed p;
     _stats := _stats p; monotonic_us := monotonic_us p; time_us := time_us p;
     put_calls := put_calls p; delivered := delivered p;
     slept_ms := slept_ms p; flush_notified := flush_notified p;
     in_flight := l |}.

(** [AsyncProducer.__init__], given the two clock readings. *)
Definition AsyncProducer_init (mono wall : Z) : AsyncProducer :=
  {| _buffer := []; _buffer_size := 0; _closed := false;
     _stats := ProducerStats_init; monotonic_us := mono; time_us := wall;
     put_calls := []; delivered := []; slept_ms := []; flush_notified := 0;
     in_flight := [] |}.

(** ** Methods: state passing with exceptions *)

Module Method.

(** Outcome of a call: it returns, it raises, or ([Blocked]) it is still
    waiting when the modelled run ends. *)
Inductive outcome (A : Type) : Type :=
| Return (a : A)
| Raised (e : exn)
| Blocked.
Arguments Return {A} a.
Arguments Raised {A} e.
Arguments Blocked {A}.

Definition M (A : Type) : Type := AsyncProducer -> outcome A * AsyncProducer.

Definition ret {A : Type} (a : A) : M A := fun p => (Return a, p).

Definition raise {A : Type} (e : exn) : M A := fun p => (Raised e, p).

Definition bind {A B : Type} (m : M A) (k : A -> M B) : M B :=
  fun p =>
    match m p with
    | (Return a, p') => k a p'
    | (Raised e, p') => (Raised e, p')
    | (Blocked, p') => (Blocked, p')
    end.

Definition get : M AsyncProducer := fun p => (Return p, p).

Definition modify (f : AsyncProducer -> AsyncProducer) : M unit :=
  fun p => (Return tt, f p).

(** A Python [for x in xs: body(x)]. *)
Fixpoint for_each {A : Type} (xs : list A) (body : A -> M unit) : M unit :=
  match xs with
  | [] => ret tt
  | x :: xs' => bind (body x) (fun _ => for_each xs' body)
  end.

End Method.
Import Method.

Declare Scope method_scope.
Delimit Scope method_scope with method.
Notation "x <- m ;; k" := (bind m (fun x => k))
  (at level 61, m at next level, right associativity) : method_scope.
Notation "m ;; k" := (bind m (fun _ => k))
  (at level 61, right associativity) : method_scope.
Local Open Scope method_scope.

(** What a thread finds when [Condition.wait] returns before its time-out:
    the state other threads left, as a function of the state it released. *)
Definition wakeup : Type := AsyncProducer -> AsyncProducer.

Section Producer.

Variable cfg : CLSConfig.
(** Outcome of the n-th [put_log_raw] call of this producer. *)
Variable sink : nat -> put_result.

(** *** Primitives of the environment *)

(** [self._client.put_log_raw(topic_id, log_group_list)].  The payload is
    built from the chunk alone, entry by entry in order, so the history
    records the chunk. *)
Definition put_log_raw (chunk : list LogEntry) : M put_result :=
  fun p =>
    let r := sink (List.length (put_calls p)) in
    let p1 := set_put_calls (put_calls p ++ [chunk]) p in
    (Return r,
     match r with
     | PutOk => set_delivered (delivered p1 ++ [chunk]) p1
     | _ => p1
     end).

(** [time.sleep(ms / 1000.0)]; a negative length raises [ValueError]. *)
Definition sleep_ms (ms : Z) : M unit :=
  fun p =>
    if ms <? 0 then (Raised ValueError, p)
    else (Return tt,
          set_monotonic (monotonic_us p + ms * 1000)
            (set_slept_ms (slept_ms p ++ [ms]) p)).

(** [self._not_empty.notify()] *)
Definition notify_not_empty : M unit :=
  modify (fun p => set_flush_notified (flush_notified p + 1) p).

(** [self._not_full.wait(timeout=remaining)]: the next wake-up if one is
    left, the time-out otherwise (nobody touched the state). *)
Definition wait_not_full (remaining : Z) (ws : list wakeup)
    (p : AsyncProducer) : AsyncProducer * list wakeup :=
  match ws with
  | w :: ws' => (w p, ws')
  | [] => (set_monotonic (monotonic_us p + remaining) p, [])
  end.

Definition stats_do (f : ProducerStats -> ProducerStats) : M unit :=
  modify (fun p => set_stats (f (_stats p)) p).

(** *** _send_chunk *)

Definition retryable (get_error_code : option string)
    (resp_status : option Z) : bool :=
  let error_code :=
    match get_error_code with Some c => c | None => EmptyString end in
  (String.eqb error_code "InternalError"
   || String.eqb error_code "Timeout"
   || String.eqb error_code "SpeedQuotaExceed")
  || match resp_status with Some s => 500 <=? s | None => false end.

(** The statements after the [for] loop: all attempts failed. *)
Definition _send_chunk_failed : M unit := stats_do incr_fail.

(** The [for attempt in range(retries + 1)] loop over its remaining
    attempt numbers. *)
Fixpoint _send_chunk_loop (attempts : list Z) (backoff_ms : Z)
    (entries : list LogEntry) : M unit :=
  match attempts with
  | [] => _send_chunk_failed
  | attempt :: rest =>
      r <- put_log_raw entries ;;
      match r with
      | PutOk =>
          stats_do incr_success ;;
          stats_do (incr_logs (len entries))
      | PutLogException code status =>
          if negb (retryable code status) || (retries cfg <=? attempt)
          then _send_chunk_failed
          else
            sleep_ms backoff_ms ;;
            _send_chunk_loop rest
              (Z.min (backoff_ms * 2) (max_retry_backoff_ms cfg)) entries
      | PutException =>
          if retries cfg <=? attempt
          then _send_chunk_failed
          else
            sleep_ms backoff_ms ;;
            _send_chunk_loop rest
              (Z.min (backoff_ms * 2) (max_retry_backoff_ms cfg)) entries
      end
  end.

(** [_send_chunk] once its payload is built: the attempts and what follows
    them.  The first line of the method, which builds the payload and can
    raise, is in [_send_chunk_from_payload]. *)
Definition _send_chunk (entries : list LogEntry) : M unit :=
  match range 0 (retries cfg + 1) 1 with
  | Raise e => raise e
  | Ok attempts =>
      _send_chunk_loop attempts (base_retry_backoff_ms cfg) entries
  end.

(** *** _send_batch *)

Definition _send_batch (entries : list LogEntry) : M unit :=
  match range 0 (len entries) (max_batch_count cfg) with
  | Raise e => raise e
  | Ok starts =>
      for_each starts
        (fun i => _send_chunk (slice entries i (i + max_batch_count cfg)))
  end.

(** *** _drain_buffer, flush *)

Definition _drain_buffer : M (list LogEntry) :=
  fun p =>
    match _buffer p with
    | [] => (Return [], p)
    | entries => (Return entries, set_buffer_size 0 (set_buffer [] p))
    end.

Definition flush : M unit :=
  entries <- _drain_buffer ;;
  match entries with
  | [] => ret tt
  | _ => _send_batch entries
  end.

(** One pass of [_flush_loop] after its wait.  It runs on the flush
    thread: an exception ends that thread and reaches no caller. *)
Definition _flush_loop_pass (p : AsyncProducer) : AsyncProducer :=
  snd (flush p).

(** The two halves of a pass, for the runs in which other operations come
    in between.  First [entries = self._drain_buffer()]: the thread takes the
    buffer, unless it is still delivering what it took before. *)
Definition _flush_loop_drain (p : AsyncProducer) : AsyncProducer :=
  match in_flight p with
  | [] =>
      match _drain_buffer p with
      | (Return entries, q) => set_in_flight entries q
      | (_, q) => q
      end
  | _ => p
  end.

(** Then [if entries: self._send_batch(entries)]: the thread delivers what
    it holds; it goes back to its wait afterwards, or ends on an
    exception. *)
Definition _flush_loop_send (p : AsyncProducer) : AsyncProducer :=
  match in_flight p with
  | [] => p
  | entries => set_in_flight [] (snd (_send_batch entries p))
  end.

(** *** send *)

Definition overflows (entry : LogEntry) (p : AsyncProducer) : bool :=
  total_size_bytes cfg <? _buffer_size p + size entry.

Definition drop_entry (p : AsyncProducer) : AsyncProducer :=
  set_stats (incr_drop 1 (_stats p)) p.

(** The [while] loop of the blocking branch; [fuel] bounds its
    iterations.  [Return true]: there is room; [Return false]: timed out,
    the entry was dropped. *)
Fixpoint send_wait (fuel : nat) (entry : LogEntry) (deadline : Z)
    (ws : list wakeup) : M bool :=
  fun p =>
    if overflows entry p then
      let remaining := deadline - monotonic_us p in
      if remaining <=? 0 then (Return false, drop_entry p)
      else
        match fuel with
        | O => (Blocked, p)
        | S fuel' =>
            let (p', ws') := wait_not_full remaining ws p in
            send_wait fuel' entry deadline ws' p'
        end
    else (Return true, p).

(** The critical section up to the append: is the entry admitted? *)
Definition send_admission (entry : LogEntry) (ws : list wakeup) : M bool :=
  fun p =>
    if overflows entry p then
      if max_block_sec cfg <=? 0 then (Return false, drop_entry p)
      else
        let deadline := monotonic_us p + max_block_sec cfg * 1000000 in
        send_wait (S (S (List.length ws))) entry deadline ws p
    else (Return true, p).

Definition send_append (entry : LogEntry) : M unit :=
  modify (fun p => set_buffer (_buffer p ++ [entry]) p) ;;
  modify (fun p => set_buffer_size (_buffer_size p + size entry) p) ;;
  p <- get ;;
  if (max_batch_size cfg <=? _buffer_size p)
     || (max_batch_count cfg <=? len (_buffer p))
  then notify_not_empty
  else ret tt.

Definition send (log_fields : list (str * str)) (timestamp_us : option Z)
    (ws : list wakeup) : M bool :=
  p <- get ;;
  if _closed p then ret false
  else
    let ts := match timestamp_us with Some t => t | None => time_us p end in
    let entry := LogEntry_init ts log_fields 0 in
    admitted <- send_admission entry ws ;;
    if admitted then send_append entry ;; ret true
    else ret false.

(** *** close *)

(** [self._flush_thread.join(timeout=timeout_ms / 1000)].  [final_pass]:
    whether the flush thread runs while [close] waits for it.  If it does, it
    takes the buffer, or goes on with the delivery it was in, and ends after
    that delivery, the flag being set.  The join sees it end when the sleeps
    of the delivery fit in the time-out; otherwise it gives up with the
    delivery still in flight. *)
Definition join_flush_thread (timeout_ms : Z) (final_pass : bool) : M unit :=
  modify (fun p =>
    if final_pass then
      let started := _flush_loop_drain p in
      let finished := _flush_loop_send started in
      if monotonic_us finished - monotonic_us p <=? timeout_ms * 1000
      then finished
      else started
    else p).

Definition close (timeout_ms : Z) (final_pass : bool) : M unit :=
  p <- get ;;
  if _closed p then ret tt
  else
    modify (set_closed true) ;;
    notify_not_empty ;;
    join_flush_thread timeout_ms final_pass ;;
    flush.

(** The [stats] property. *)
Definition stats (p : AsyncProducer) : ProducerStats := _stats p.

End Producer.

(** ** Calls from outside and their runs *)

(** The operations that reach a producer: the three public methods and, from
    the flush thread, one pass of its loop, whole or in its two halves. *)
Inductive call : Type :=
| CallSend (log_fields : list (str * str)) (timestamp_us : option Z)
    (ws : list wakeup)
| CallFlush
| CallClose (timeout_ms : Z) (final_pass : bool)
| FlushThreadPass
| FlushThreadDrains
| FlushThreadSends.

Definition run_call (cfg : CLSConfig) (sink : nat -> put_result) (c : call)
    (p : AsyncProducer) : AsyncProducer :=
  match c with
  | CallSend fs ts ws => snd (send cfg fs ts ws p)
  | CallFlush => snd (flush cfg sink p)
  | CallClose t fp => snd (close cfg sink t fp p)
  | FlushThreadPass => _flush_loop_pass cfg sink p
  | FlushThreadDrains => _flush_loop_drain p
  | FlushThreadSends => _flush_loop_send cfg sink p
  end.

Definition run_calls (cfg : CLSConfig) (sink : nat -> put_result)
    (cs : list call) (p : AsyncProducer) : AsyncProducer :=
  fold_left (fun q c => run_call cfg sink c q) cs p.

(** Other threads keep [I]: every wake-up of every [send] preserves it. *)
Definition wakeups_keep (I : AsyncProducer -> Prop) (ws : list wakeup) : Prop :=
  Forall (fun w : wakeup => forall q, I q -> I (w q)) ws.

Definition calls_keep (I : AsyncProducer -> Prop) (cs : list call) : Prop :=
  Forall (fun c => match c with
                   | CallSend _ _ ws => wakeups_keep I ws
                   | _ => True
                   end) cs.

(** ** Predicates of the statements *)

Definition sum_sizes (es : list LogEntry) : Z :=
  fold_right (fun e acc => size e + acc) 0 es.

(** [total_bytes == sum(e.size for e in entries)] *)
Definition buffer_inv (p : AsyncProducer) : Prop :=
  _buffer_size p = sum_sizes (_buffer p).

(** The dispatcher leaves the queue alone. *)
Definition same_queue (p p' : AsyncProducer) : Prop :=
  _buffer p' = _buffer p /\ _buffer_size p' = _buffer_size p
  /\ _closed p' = _closed p.

(** ** Notions used by the statements *)

(** The body of [close] on a producer that is not closed yet. *)
Definition closing (cfg : CLSConfig) (sink : nat -> put_result)
    (timeout_ms : Z) (final_pass : bool) (p : AsyncProducer) : AsyncProducer :=
  let q := set_closed true p in
  let q := set_flush_notified (flush_notified q + 1) q in
  snd (join_flush_thread cfg sink timeout_ms final_pass q).

(** The entry [send] builds from its arguments. *)
Definition entry_of (fs : list (str * str)) (ts : option Z)
    (p : AsyncProducer) : LogEntry :=
  LogEntry_init (match ts with Some t => t | None => time_us p end) fs 0.

(** The defaults with a capacity of 1000 bytes, and a field map of size
    400 (a key of 3 and a value of 397 characters). *)
Definition config_capacity_1000 : CLSConfig :=
  {| total_size_bytes := 1000; max_send_workers := 50; max_block_sec := 0;
     max_batch_size := 5242880; max_batch_count := 4096; linger_ms := 2000;
     retries := 10; base_retry_backoff_ms := 100;
     max_retry_backoff_ms := 50000 |}.

Definition fields_400 : list (str * str) :=
  [(repeat 109%N 3, repeat 120%N 397)].

(** The byte counter is not negative. *)
Definition nonneg_buffer (p : AsyncProducer) : Prop := 0 <= _buffer_size p.

(** The defaults with a capacity of 10 bytes and a block duration of 3 s. *)
Definition config_blocking_small : CLSConfig :=
  {| total_size_bytes := 10; max_send_workers := 50; max_block_sec := 3;
     max_batch_size := 5242880; max_batch_count := 4096; linger_ms := 2000;
     retries := 10; base_retry_backoff_ms := 100;
     max_retry_backoff_ms := 50000 |}.



(** The chunks [_send_batch] hands to [_send_chunk], in order: the slices
    [entries[i : i + max_batch_count]] for the [i] of its [range]. *)
Definition batch_chunks (cfg : CLSConfig) (entries : list LogEntry)
    : list (list LogEntry) :=
  match range 0 (len entries) (max_batch_count cfg) with
  | Ok starts =>
      map (fun i => slice entries i (i + max_batch_count cfg)) starts
  | Raise _ => []
  end.

(** The state after the sink accepted [chunk] at the first attempt. *)
Definition chunk_delivered (chunk : list LogEntry) (p : AsyncProducer)
    : AsyncProducer :=
  set_stats (incr_logs (len chunk) (incr_success (_stats p)))
    (set_delivered (delivered p ++ [chunk])
       (set_put_calls (put_calls p ++ [chunk]) p)).

Definition chunks_delivered (chunks : list (list LogEntry))
    (p : AsyncProducer) : AsyncProducer :=
  fold_left (fun q c => chunk_delivered c q) chunks p.


(** The defaults with two entries per chunk. *)
Definition config_chunks_of_2 : CLSConfig :=
  {| total_size_bytes := 104857600; max_send_workers := 50;
     max_block_sec := 0; max_batch_size := 5242880; max_batch_count := 2;
     linger_ms := 2000; retries := 10; base_retry_backoff_ms := 100;
     max_retry_backoff_ms := 50000 |}.

(** An entry without fields, told apart by its timestamp. *)
Definition bare_entry (ts : Z) : LogEntry := LogEntry_init ts [] 0.

(** A failure the loop answers with a retry while attempts remain: a sink
    error classified as retryable, or any other exception. *)
Definition retried (r : put_result) : bool :=
  match r with
  | PutOk => false
  | PutLogException code status => retryable code status
  | PutException => true
  end.

(** The update of [backoff_ms] after a sleep, and the sleeps of [m]
    consecutive retries starting from [b]. *)
Definition next_backoff (cfg : CLSConfig) (b : Z) : Z :=
  Z.min (b * 2) (max_retry_backoff_ms cfg).

Fixpoint backoffs (cfg : CLSConfig) (b : Z) (m : nat) : list Z :=
  match m with
  | O => []
  | S m' => b :: backoffs cfg (next_backoff cfg b) m'
  end.

(** The specification's closed form: [min(base * 2^k, max_backoff)]. *)
Definition backoff_at (cfg : CLSConfig) (k : nat) : Z :=
  Z.min (base_retry_backoff_ms cfg * 2 ^ Z.of_nat k)
    (max_retry_backoff_ms cfg).

Definition backoff_seq (cfg : CLSConfig) (n : nat) : list Z :=
  map (backoff_at cfg) (seq 0 n).

(** The state after an attempt that ended the chunk's delivery in failure. *)
Definition chunk_failed (chunk : list LogEntry) (p : AsyncProducer)
    : AsyncProducer :=
  set_stats (incr_fail (_stats p))
    (set_put_calls (put_calls p ++ [chunk]) p).

(** A sink that times out on every call. *)
Definition sink_always_timeout : nat -> put_result :=
  fun _ => PutLogException (Some "Timeout"%string) None.

(** How [_send_chunk] treats the outcome of an attempt. *)
Inductive delivery_class : Type :=
| Success
| Retryable
| Fatal.

Definition classify (r : put_result) : delivery_class :=
  match r with
  | PutOk => Success
  | PutLogException code status =>
      if retryable code status then Retryable else Fatal
  | PutException => Retryable
  end.

(** A sink that refuses every call with a client error. *)
Definition sink_always_unauthorized : nat -> put_result :=
  fun _ => PutLogException (Some "Unauthorized"%string) (Some 403).

(** A sink whose every call raises something that is no [LogException]. *)
Definition sink_always_raises : nat -> put_result := fun _ => PutException.

(** A sink whose first three calls raise something that is no
    [LogException] and whose later calls are refused with a client error. *)
Definition sink_raises_then_unauthorized : nat -> put_result :=
  fun n =>
    if (n <? 3)%nat then PutException
    else PutLogException (Some "Unauthorized"%string) (Some 403).

(** The defaults with two retries and a base backoff above the maximum. *)
Definition config_base_above_cap : CLSConfig :=
  {| total_size_bytes := 104857600; max_send_workers := 50;
     max_block_sec := 0; max_batch_size := 5242880; max_batch_count := 4096;
     linger_ms := 2000; retries := 2; base_retry_backoff_ms := 1000;
     max_retry_backoff_ms := 300 |}.










(** ** producer.py: the exit hook *)

(** [_atexit_flush]: closes a producer that is still open, with a 5 s
    time-out, and swallows whatever [close] raises. *)
Definition _atexit_flush (cfg : CLSConfig) (sink : nat -> put_result)
    (final_pass : bool) : M unit :=
  fun p =>
    if _closed p then (Return tt, p)
    else
      match close cfg sink 5000 final_pass p with
      | (Raised _, q) => (Return tt, q)
      | r => r
      end.


(** The buffer once drained. *)
Definition drained (p : AsyncProducer) : AsyncProducer :=
  set_buffer_size 0 (set_buffer [] p).

(** No counter of [s'] is below its value in [s]. *)
Definition stats_le (s s' : ProducerStats) : Prop :=
  send_success s <= send_success s'
  /\ send_fail s <= send_fail s'
  /\ log_count s <= log_count s'
  /\ drop_count s <= drop_count s'.

(** Other threads only add to the counters while a caller waits. *)
Definition wakeups_count_up (ws : list wakeup) : Prop :=
  Forall (fun w : wakeup => forall q, stats_le (_stats q) (_stats (w q))) ws.

Definition calls_count_up (cs : list call) : Prop :=
  Forall (fun c => match c with
                   | CallSend _ _ ws => wakeups_count_up ws
                   | _ => True
                   end) cs.

(** ** Python dictionaries with [str] keys *)

Fixpoint str_eqb (a b : str) : bool :=
  match a, b with
  | [], [] => true
  | x :: a', y :: b' => N.eqb x y && str_eqb a' b'
  | _, _ => false
  end.

(** An ASCII literal as a [str]. *)
Fixpoint lit (s : string) : str :=
  match s with
  | EmptyString => []
  | String a s' => Ascii.N_of_ascii a :: lit s'
  end.

(** A [dict]: its items in insertion order, keys pairwise distinct. *)
Definition dict (V : Type) : Type := list (str * V).

Fixpoint dict_get {V : Type} (d : dict V) (k : str) : option V :=
  match d with
  | [] => None
  | (k', v) :: d' => if str_eqb k' k then Some v else dict_get d' k
  end.

(** [k in d] *)
Definition dict_has {V : Type} (d : dict V) (k : str) : bool :=
  match dict_get d k with Some _ => true | None => false end.

(** [d[k] = v]: an existing key keeps its place, a new one goes last. *)
Fixpoint dict_set {V : Type} (k : str) (v : V) (d : dict V) : dict V :=
  match d with
  | [] => [(k, v)]
  | (k', v') :: d' =>
      if str_eqb k' k then (k', v) :: d' else (k', v') :: dict_set k v d'
  end.

(** [d.get(k, default)] *)
Definition dict_get_default {V : Type} (d : dict V) (k : str) (default : V)
    : V :=
  match dict_get d k with Some v => v | None => default end.

Definition dict_keys {V : Type} (d : dict V) : list str := map fst d.

(** [x in xs] for a collection of [str]. *)
Definition str_in (x : str) (xs : list str) : bool := existsb (str_eqb x) xs.

(** A field map that renames something: [field_map] is neither [None] nor
    empty. *)
Definition truthy {V : Type} (field_map : option (dict V)) : bool :=
  match field_map with
  | Some (_ :: _) => true
  | _ => false
  end.

(** ** producer.py: _Batch *)

Module _Batch.

Record t : Type := {
  entries : list LogEntry;
  total_size : Z;
  count : Z
}.

(** [_Batch()] *)
Definition empty : t := {| entries := []; total_size := 0; count := 0 |}.

Definition add (b : t) (entry : LogEntry) : t :=
  {| entries := entries b ++ [entry];
     total_size := total_size b + size entry;
     count := count b + 1 |}.

Definition is_empty (b : t) : bool := count b =? 0.

End _Batch.

(** ** producer.py: _build_log_group_list *)

(** The part of [cls_pb2] the producer fills in. *)
Module cls_pb2.

Record Log : Type := {
  time : Z;
  contents : list (str * str)
}.

Record LogGroup : Type := {
  source : str;
  logs : list Log
}.

Definition LogGroupList : Type := list LogGroup.

End cls_pb2.

(** The key under which a field is reported. *)
Definition report_key (field_map : option (dict str)) (key : str) : str :=
  match field_map with
  | Some fm =>
      if truthy field_map && dict_has fm key
      then dict_get_default fm key key
      else key
  | None => key
  end.

Definition build_log (field_map : option (dict str)) (entry : LogEntry)
    : cls_pb2.Log :=
  {| cls_pb2.time := timestamp_us entry;
     cls_pb2.contents :=
       map (fun kv => (report_key field_map (fst kv), snd kv))
         (fields entry) |}.

(** [source] and [field_map] are the configuration's fields of these
    names. *)
Definition _build_log_group_list (source : str)
    (field_map : option (dict str)) (entries : list LogEntry)
    : cls_pb2.LogGroupList :=
  [ {| cls_pb2.source := source;
       cls_pb2.logs := map (build_log field_map) entries |} ].

(** What the message classes of [cls_pb2] refuse.  [time] is an int64 field,
    and [source], keys and values are string fields that go out as UTF-8:
    assigning an integer outside the int64 range, or a string holding a
    surrogate code point, raises [ValueError].  [_build_log_group_list]
    makes these assignments with nothing around them to catch it. *)
Definition int64 (z : Z) : bool := (- 2 ^ 63 <=? z) && (z <? 2 ^ 63).

Definition encodable (s : str) : bool :=
  forallb (fun c => ((c <? 55296) || (57343 <? c)) && (c <? 1114112))%N s.

Definition log_builds (field_map : option (dict str)) (entry : LogEntry)
    : bool :=
  int64 (timestamp_us entry)
  && forallb (fun kv => encodable (report_key field_map (fst kv))
                        && encodable (snd kv))
       (fields entry).

(** [_build_log_group_list] returns. *)
Definition payload_builds (source : str) (field_map : option (dict str))
    (entries : list LogEntry) : bool :=
  encodable source && forallb (log_builds field_map) entries.

(** [_send_chunk] from its first line.  The payload is built before the
    [try]: what building it raises leaves the method before any attempt.
    [_send_chunk] above is the method from there on, for a chunk whose
    payload builds. *)
Definition _send_chunk_from_payload (source : str)
    (field_map : option (dict str)) (cfg : CLSConfig)
    (sink : nat -> put_result) (entries : list LogEntry) : M unit :=
  if payload_builds source field_map entries
  then _send_chunk cfg sink entries
  else raise ValueError.


(** All the logs of a payload, in order. *)
Definition payload_logs (l : cls_pb2.LogGroupList) : list cls_pb2.Log :=
  concat (map cls_pb2.logs l).

(** ** handler.py *)

Module logging.

(** What the handler reads of a [LogRecord]: [exc_info] holds the formatted
    traceback when the record carries an exception, [__dict__] the
    attributes with their values rendered by [str]. *)
Record LogRecord : Type := {
  name : option str;
  levelname : str;
  filename : str;
  lineno : Z;
  funcName : option str;
  exc_info : option str;
  __dict__ : dict str
}.

Definition NOTSET : Z := 0.

End logging.

Definition TIME_KEY : str := lit "Time".
Definition LEVEL_KEY : str := lit "Level".
Definition MSG_KEY : str := lit "Msg".
Definition CALLER_KEY : str := lit "Caller".
Definition FUNC_KEY : str := lit "func".
Definition NAME_KEY : str := lit "Name".
Definition STACKTRACE_KEY : str := lit "StackTrace".

Definition _BUILTIN_ATTRS : list str :=
  map lit
    ["name"; "msg"; "args"; "created"; "relativeCreated"; "exc_info";
     "exc_text"; "stack_info"; "lineno"; "funcName"; "filename";
     "module"; "pathname"; "thread"; "threadName"; "process";
     "processName"; "levelname"; "levelno"; "msecs"; "message";
     "taskName"]%string.

(** [x or ""] *)
Definition or_empty (x : option str) : str :=
  match x with Some s => s | None => [] end.

Definition _apply_field_map (field_map : option (dict str))
    (fields : dict str) : dict str :=
  match field_map with
  | Some ((_ :: _) as fm) =>
      fold_left
        (fun mapped kv =>
           dict_set (dict_get_default fm (fst kv) (fst kv)) (snd kv) mapped)
        fields []
  | _ => fields
  end.

(** [for key, value in items: if key not in fields: fields[key] = value],
    when [keep key] holds. *)
Definition add_missing (keep : str -> bool) (items fields : dict str)
    : dict str :=
  fold_left
    (fun fs kv =>
       if keep (fst kv) && negb (dict_has fs (fst kv))
       then dict_set (fst kv) (snd kv) fs
       else fs)
    items fields.

(** [_record_to_fields].  [msg] is [self.format(record)], [log_time] the
    formatted creation time and [int_str] Python's [str] on integers. *)
Definition _record_to_fields (int_str : Z -> str)
    (field_map : option (dict str)) (_context_fields : dict str)
    (msg log_time : str) (record : logging.LogRecord) : dict str :=
  let fields :=
    fold_left (fun d kv => dict_set (fst kv) (snd kv) d)
      [(TIME_KEY, log_time);
       (LEVEL_KEY, logging.levelname record);
       (MSG_KEY, msg);
       (CALLER_KEY,
        logging.filename record ++ lit ":"
        ++ int_str (logging.lineno record));
       (FUNC_KEY, or_empty (logging.funcName record));
       (NAME_KEY, or_empty (logging.name record))] [] in
  let fields := add_missing (fun _ => true) _context_fields fields in
  let fields :=
    match logging.exc_info record with
    | Some tb => dict_set STACKTRACE_KEY tb fields
    | None => fields
    end in
  let fields :=
    add_missing (fun key => negb (str_in key _BUILTIN_ATTRS))
      (logging.__dict__ record) fields in
  if truthy field_map then _apply_field_map field_map fields else fields.

(** ** config.py: validate and from_dict *)

(** The four required fields of [CLSConfig]. *)
Record CLSRequired : Type := {
  topic_id : str;
  host : str;
  secret_id : str;
  secret_key : str
}.

(** The list [missing] that [validate] builds. *)
Definition validate_missing (c : CLSRequired) : list str :=
  (match topic_id c with [] => [lit "topic_id"] | _ => [] end)
  ++ (match host c with [] => [lit "host"] | _ => [] end)
  ++ (match secret_id c with [] => [lit "secret_id"] | _ => [] end)
  ++ (match secret_key c with [] => [lit "secret_key"] | _ => [] end).

Definition validate (c : CLSRequired) : result unit :=
  match validate_missing c with
  | [] => Ok tt
  | _ => Raise ValueError
  end.

(** The names of the dataclass fields. *)
Definition dataclass_fields : list str :=
  map lit
    ["topic_id"; "host"; "secret_id"; "secret_key"; "source";
     "total_size_bytes"; "max_send_workers"; "max_block_sec";
     "max_batch_size"; "max_batch_count"; "linger_ms"; "retries";
     "base_retry_backoff_ms"; "max_retry_backoff_ms"; "field_map"]%string.

Definition _alias : dict str :=
  [(lit "total_size_ln_bytes", lit "total_size_bytes");
   (lit "max_send_worker_count", lit "max_send_workers")].

(** The keyword arguments [from_dict] passes to the constructor: the keys
    are mapped through [_alias], then those that name no field are left
    out. *)
Definition from_dict_kwargs {V : Type} (d : dict V) : dict V :=
  let mapped :=
    fold_left
      (fun mapped kv =>
         dict_set (dict_get_default _alias (fst kv) (fst kv)) (snd kv)
           mapped)
      d [] in
  filter (fun kv => str_in (fst kv) dataclass_fields) mapped.

(** ** __init__.py: the logger's level after setup *)

(** [if level == NOTSET or level > handler level: setLevel(handler level)] *)
Definition logger_level_after (logger_level level : Z) : Z :=
  if (logger_level =? logging.NOTSET) || (level <? logger_level)
  then level
  else logger_level.

(** The value of the last item of [items] whose key, once renamed by [g],
    is [k]. *)
Definition last_value {V : Type} (g : str -> str) (items : dict V) (k : str)
    : option V :=
  fold_left
    (fun acc kv => if str_eqb (g (fst kv)) k then Some (snd kv) else acc)
    items None.

(** The renaming a field map stands for. *)
Definition rename (fm : dict str) (key : str) : str :=
  dict_get_default fm key key.

(** No name a field map renames to is itself renamed to something else. *)
Definition chain_free (fm : dict str) : Prop :=
  forall k v, dict_get fm k = Some v -> rename fm v = v.

(** The fields of a record before any renaming, key by key: the standard
    fields first, then the stack trace of an exception, then the context
    fields, then the record's own attributes that are not built in. *)
Definition reported_value (int_str : Z -> str) (_context_fields : dict str)
    (msg log_time : str) (record : logging.LogRecord) (k : str)
    : option str :=
  let standard :=
    [(TIME_KEY, log_time);
     (LEVEL_KEY, logging.levelname record);
     (MSG_KEY, msg);
     (CALLER_KEY,
      logging.filename record ++ lit ":" ++ int_str (logging.lineno record));
     (FUNC_KEY, or_empty (logging.funcName record));
     (NAME_KEY, or_empty (logging.name record))] in
  let known :=
    match dict_get standard k with
    | Some v => Some v
    | None => dict_get _context_fields k
    end in
  let known :=
    match logging.exc_info record with
    | Some tb => if str_eqb STACKTRACE_KEY k then Some tb else known
    | None => known
    end in
  match known with
  | Some v => Some v
  | None =>
      if str_in k _BUILTIN_ATTRS then None
      else dict_get (logging.__dict__ record) k
  end.

(** [set_context_fields], its keyword arguments as a dict with the values
    already rendered by [str]. *)
Definition set_context_fields (kwargs _context_fields : dict str)
    : dict str :=
  fold_left (fun ctx kv => dict_set (fst kv) (snd kv) ctx) kwargs
    _context_fields.

(** The success counters match the history of the sink: [log_count] is the
    number of entries in the chunks the sink accepted, [send_success] the
    number of those chunks. *)
Definition counts_match_deliveries (p : AsyncProducer) : Prop :=
  log_count (_stats p) = len (concat (delivered p))
  /\ send_success (_stats p) = len (delivered p).

(** Every chunk handed to the sink holds between one and [max_batch_count]
    entries. *)
Definition chunks_well_sized (cfg : CLSConfig) (p : AsyncProducer) : Prop :=
  Forall (fun chunk => 1 <= len chunk <= max_batch_count cfg) (put_calls p).

(** * Proofs *)

Ltac unfold_method :=
  unfold bind, ret, raise, get, modify, stats_do, notify_not_empty,
    _send_chunk_failed in *.

Lemma same_queue_refl p : same_queue p p.
Proof. repeat split. Qed.

Lemma same_queue_trans p q r :
  same_queue p q -> same_queue q r -> same_queue p r.
Proof.
  unfold same_queue; intros (A & B & C) (D & E & F).
  repeat split; congruence.
Qed.

Lemma put_log_raw_queue sink chunk p :
  same_queue p (snd (put_log_raw sink chunk p)).
Proof.
  unfold put_log_raw; simpl.
  destruct (sink (List.length (put_calls p))); repeat split.
Qed.

Lemma sleep_ms_queue ms p : same_queue p (snd (sleep_ms ms p)).
Proof.
  unfold sleep_ms. destruct (ms <? 0); repeat split.
Qed.

Lemma _send_chunk_loop_queue cfg sink entries attempts :
  forall backoff p,
    same_queue p (snd (_send_chunk_loop cfg sink attempts backoff entries p)).
Proof.
  induction attempts as [|attempt rest IH]; intros backoff p.
  - repeat split.
  - cbn [_send_chunk_loop]. unfold bind at 1.
    pose proof (put_log_raw_queue sink entries p) as Hq.
    unfold put_log_raw in *. cbn [snd] in Hq.
    set (p1 := match sink (List.length (put_calls p)) with
               | PutOk => _ | _ => _ end) in *.
    assert (Hretry : forall q, same_queue p q ->
      same_queue p
        (snd ((sleep_ms backoff ;;
               _send_chunk_loop cfg sink rest
                 (Z.min (backoff * 2) (max_retry_backoff_ms cfg)) entries) q))).
    { intros q Hpq. unfold bind.
      pose proof (sleep_ms_queue backoff q) as Hs.
      destruct (sleep_ms backoff q) as [[[]|e|] q'] eqn:E; cbn [snd] in *;
        try (eapply same_queue_trans; eassumption).
      eapply same_queue_trans; [eassumption|].
      eapply same_queue_trans; [eassumption|]. apply IH. }
    destruct (sink (List.length (put_calls p))) as [|code status|].
    + repeat split; apply Hq.
    + destruct (negb (retryable code status) || (retries cfg <=? attempt)).
      * repeat split; apply Hq.
      * apply Hretry, Hq.
    + destruct (retries cfg <=? attempt).
      * repeat split; apply Hq.
      * apply Hretry, Hq.
Qed.

Lemma _send_chunk_queue cfg sink entries p :
  same_queue p (snd (_send_chunk cfg sink entries p)).
Proof.
  unfold _send_chunk. destruct (range 0 (retries cfg + 1) 1).
  - apply _send_chunk_loop_queue.
  - apply same_queue_refl.
Qed.

Lemma for_each_queue {A : Type} (body : A -> M unit) (xs : list A) :
  (forall x p, same_queue p (snd (body x p))) ->
  forall p, same_queue p (snd (for_each xs body p)).
Proof.
  intros Hbody. induction xs as [|x xs IH]; intros p.
  - apply same_queue_refl.
  - cbn [for_each]. unfold bind.
    pose proof (Hbody x p) as Hx.
    destruct (body x p) as [[[]|e|] q]; cbn [snd] in *; auto.
    eapply same_queue_trans; [eassumption|apply IH].
Qed.

Lemma _send_batch_queue cfg sink entries p :
  same_queue p (snd (_send_batch cfg sink entries p)).
Proof.
  unfold _send_batch.
  destruct (range 0 (len entries) (max_batch_count cfg)).
  - apply for_each_queue. intros; apply _send_chunk_queue.
  - apply same_queue_refl.
Qed.

(** [flush] empties the queue and keeps the closed flag. *)
Lemma flush_queue cfg sink p :
  let p' := snd (flush cfg sink p) in
  _buffer p' = [] /\ _closed p' = _closed p
  /\ (_buffer p = [] -> p' = p)
  /\ (_buffer p <> [] -> _buffer_size p' = 0).
Proof.
  unfold flush, bind, _drain_buffer.
  destruct (_buffer p) as [|e es] eqn:E.
  - cbn. repeat split; auto. congruence.
  - pose proof (_send_batch_queue cfg sink (e :: es)
                  (set_buffer_size 0 (set_buffer [] p))) as (A & B & C).
    cbn. repeat split; auto. congruence.
Qed.

(** ** Sending on a closed producer *)

Lemma send_closed cfg fs ts ws p :
  _closed p = true -> send cfg fs ts ws p = (Return false, p).
Proof.
  intros Hc. unfold send, bind, get, ret. now rewrite Hc.
Qed.

(** C2, as amended: a [send] on a producer whose closed flag is set returns
    [False] at once and changes nothing; in particular the drop counter
    keeps its value. *)
Theorem send_closed_returns_false_unchanged :
  forall cfg fs ts ws p,
    _closed p = true ->
    send cfg fs ts ws p = (Return false, p)
    /\ drop_count (stats (snd (send cfg fs ts ws p))) = drop_count (stats p).
Proof.
  intros cfg fs ts ws p Hc.
  rewrite (send_closed cfg fs ts ws p Hc). split; reflexivity.
Qed.

Lemma send_closed_returns_false_unchanged_witness :
  let p := set_closed true (AsyncProducer_init 0 0) in
  send default_config [] None [] p = (Return false, p)
  /\ drop_count (stats (snd (send default_config [] None [] p)))
     = drop_count (stats p).
Proof.
  apply (send_closed_returns_false_unchanged default_config [] None []
           (set_closed true (AsyncProducer_init 0 0))).
  reflexivity.
Defined.

(** C2, as stated, fails: on a closed producer with drop counter 0 the call
    returns [False] and the drop counter is still 0, not 1. *)
Lemma send_closed_drop_counter_counterexample :
  let p := set_closed true (AsyncProducer_init 0 0) in
  _closed p = true
  /\ fst (send default_config [] None [] p) = Return false
  /\ drop_count (stats (snd (send default_config [] None [] p)))
     <> drop_count (stats p) + 1.
Proof.
  cbv. repeat split; discriminate.
Qed.

(** ** The steps of the flush thread *)

Lemma set_in_flight_same p : set_in_flight (in_flight p) p = p.
Proof. now destruct p. Qed.

Lemma _flush_loop_drain_cases p :
  _flush_loop_drain p = p
  \/ (in_flight p = [] /\ _buffer p <> []
      /\ _flush_loop_drain p = set_in_flight (_buffer p) (drained p)).
Proof.
  unfold _flush_loop_drain, _drain_buffer, drained.
  destruct (in_flight p) eqn:Ef; [|now left].
  destruct (_buffer p) eqn:Eb.
  - left. rewrite <- Ef. apply set_in_flight_same.
  - right. repeat split. discriminate.
Qed.

Lemma _flush_loop_send_cases cfg sink p :
  _flush_loop_send cfg sink p = p
  \/ (in_flight p <> []
      /\ _flush_loop_send cfg sink p
         = set_in_flight [] (snd (_send_batch cfg sink (in_flight p) p))).
Proof.
  unfold _flush_loop_send.
  destruct (in_flight p) eqn:Ef; [now left|].
  right. split; [discriminate|reflexivity].
Qed.

(** What the two steps keep, [close] keeps while it joins the thread. *)
Lemma closing_keeps cfg sink (I : AsyncProducer -> Prop) t fp p :
  I (set_flush_notified (flush_notified p + 1) (set_closed true p)) ->
  (forall q, I q -> I (_flush_loop_drain q)) ->
  (forall q, I q -> I (_flush_loop_send cfg sink q)) ->
  I (closing cfg sink t fp p).
Proof.
  intros H0 Hd Hs. unfold closing, join_flush_thread, modify. cbn [snd].
  destruct fp; [|exact H0].
  match goal with |- context [if ?c then _ else _] => destruct c end; auto.
Qed.

Lemma _flush_loop_drain_closed p :
  _closed (_flush_loop_drain p) = _closed p.
Proof.
  destruct (_flush_loop_drain_cases p) as [E|(_ & _ & E)]; now rewrite E.
Qed.

Lemma _flush_loop_send_queue cfg sink p :
  same_queue p (_flush_loop_send cfg sink p).
Proof.
  destruct (_flush_loop_send_cases cfg sink p) as [E|(_ & E)]; rewrite E.
  - apply same_queue_refl.
  - exact (_send_batch_queue cfg sink (in_flight p) p).
Qed.

(** ** close *)

Lemma close_running cfg sink t fp p :
  _closed p = false ->
  close cfg sink t fp p = flush cfg sink (closing cfg sink t fp p).
Proof.
  intros Hc. unfold close, bind, get, ret. rewrite Hc. reflexivity.
Qed.

Lemma close_closed cfg sink t fp p :
  _closed p = true -> close cfg sink t fp p = (Return tt, p).
Proof.
  intros Hc. unfold close, bind, get, ret. now rewrite Hc.
Qed.

Lemma closing_closed cfg sink t fp p :
  _closed (closing cfg sink t fp p) = true.
Proof.
  apply (closing_keeps cfg sink (fun q => _closed q = true)).
  - reflexivity.
  - intros q Hq. now rewrite _flush_loop_drain_closed.
  - intros q Hq.
    destruct (_flush_loop_send_queue cfg sink q) as (_ & _ & E).
    now rewrite E.
Qed.

Lemma close_sets_closed cfg sink t fp p :
  _closed (snd (close cfg sink t fp p)) = true.
Proof.
  destruct (_closed p) eqn:Hc.
  - rewrite close_closed by assumption. exact Hc.
  - rewrite close_running by assumption.
    pose proof (flush_queue cfg sink (closing cfg sink t fp p)) as (_ & Hq & _).
    cbn zeta in Hq. rewrite Hq. apply closing_closed.
Qed.

(** C9: [close] is idempotent.  Whatever the first call did, with whatever
    time-out and whether or not the flush thread finished its last pass, a
    second call returns at once and leaves the state, hence the stats, as
    the first call left them. *)
Theorem close_idempotent :
  forall cfg sink t1 fp1 t2 fp2 p,
    let p1 := snd (close cfg sink t1 fp1 p) in
    close cfg sink t2 fp2 p1 = (Return tt, p1)
    /\ stats (snd (close cfg sink t2 fp2 p1)) = stats p1.
Proof.
  intros cfg sink t1 fp1 t2 fp2 p p1.
  assert (E : close cfg sink t2 fp2 p1 = (Return tt, p1)).
  { apply close_closed. apply close_sets_closed. }
  rewrite E. split; reflexivity.
Qed.

(** ** The buffer invariant *)

Lemma sum_sizes_app es es' :
  sum_sizes (es ++ es') = sum_sizes es + sum_sizes es'.
Proof.
  induction es as [|e es IH]; cbn [app sum_sizes fold_right] in *.
  - reflexivity.
  - fold (sum_sizes (es ++ es')). fold (sum_sizes es). lia.
Qed.

Lemma drop_entry_inv p : buffer_inv p -> buffer_inv (drop_entry p).
Proof. exact (fun H => H). Qed.

Lemma send_wait_inv cfg entry deadline :
  forall fuel ws p,
    wakeups_keep buffer_inv ws -> buffer_inv p ->
    buffer_inv (snd (send_wait cfg fuel entry deadline ws p)).
Proof.
  induction fuel as [|fuel IH]; intros ws p Hws Hp; cbn [send_wait];
    destruct (overflows cfg entry p); auto;
    destruct (deadline - monotonic_us p <=? 0); auto.
  destruct ws as [|w ws]; cbn [wait_not_full].
  - apply IH; [constructor|exact Hp].
  - inversion Hws; subst. apply IH; auto.
Qed.

Lemma send_admission_inv cfg entry ws p :
  wakeups_keep buffer_inv ws -> buffer_inv p ->
  buffer_inv (snd (send_admission cfg entry ws p)).
Proof.
  intros Hws Hp. unfold send_admission.
  destruct (overflows cfg entry p); auto.
  destruct (max_block_sec cfg <=? 0); auto.
  now apply send_wait_inv.
Qed.

Lemma send_append_inv cfg entry p :
  buffer_inv p -> buffer_inv (snd (send_append cfg entry p)).
Proof.
  intros Hp. unfold send_append. unfold_method. cbn [fst snd].
  match goal with |- context [if ?c then _ else _] => destruct c end;
    unfold buffer_inv in *; cbn; rewrite sum_sizes_app; cbn; lia.
Qed.

Lemma send_inv cfg fs ts ws p :
  wakeups_keep buffer_inv ws -> buffer_inv p ->
  buffer_inv (snd (send cfg fs ts ws p)).
Proof.
  intros Hws Hp. unfold send. unfold bind at 1. unfold get.
  destruct (_closed p); [exact Hp|].
  set (entry := LogEntry_init _ fs 0).
  unfold bind at 1.
  pose proof (send_admission_inv cfg entry ws p Hws Hp) as Ha.
  destruct (send_admission cfg entry ws p) as [[[|]|e|] q]; cbn [snd] in *;
    auto.
  unfold bind at 1.
  pose proof (send_append_inv cfg entry q Ha) as Hb.
  destruct (send_append cfg entry q) as [[[]|e|] q']; cbn [snd] in *; auto.
Qed.

Lemma _drain_buffer_inv p :
  buffer_inv p -> buffer_inv (snd (_drain_buffer p)).
Proof.
  intros Hp. unfold _drain_buffer.
  destruct (_buffer p) eqn:E; [exact Hp|reflexivity].
Qed.

Lemma flush_inv cfg sink p :
  buffer_inv p -> buffer_inv (snd (flush cfg sink p)).
Proof.
  intros Hp.
  pose proof (flush_queue cfg sink p) as (Hb & _ & Hsame & Hzero).
  cbn zeta in *.
  destruct (_buffer p) eqn:E.
  - rewrite Hsame by reflexivity. exact Hp.
  - unfold buffer_inv. rewrite Hb, Hzero by discriminate. reflexivity.
Qed.

Lemma _flush_loop_drain_inv p :
  buffer_inv p -> buffer_inv (_flush_loop_drain p).
Proof.
  intros Hp.
  destruct (_flush_loop_drain_cases p) as [E|(_ & _ & E)]; rewrite E;
    [exact Hp|reflexivity].
Qed.

Lemma _flush_loop_send_inv cfg sink p :
  buffer_inv p -> buffer_inv (_flush_loop_send cfg sink p).
Proof.
  intros Hp.
  destruct (_flush_loop_send_queue cfg sink p) as (A & B & _).
  unfold buffer_inv in *. now rewrite A, B.
Qed.

Lemma closing_inv cfg sink t fp p :
  buffer_inv p -> buffer_inv (closing cfg sink t fp p).
Proof.
  intros Hp. apply (closing_keeps cfg sink buffer_inv).
  - exact Hp.
  - apply _flush_loop_drain_inv.
  - apply _flush_loop_send_inv.
Qed.

Lemma close_inv cfg sink t fp p :
  buffer_inv p -> buffer_inv (snd (close cfg sink t fp p)).
Proof.
  intros Hp. destruct (_closed p) eqn:Hc.
  - now rewrite close_closed.
  - rewrite close_running by assumption.
    now apply flush_inv, closing_inv.
Qed.

Lemma run_call_inv cfg sink c p :
  calls_keep buffer_inv [c] -> buffer_inv p ->
  buffer_inv (run_call cfg sink c p).
Proof.
  intros Hc Hp. inversion Hc as [|? ? Hk _]; subst.
  destruct c; cbn [run_call].
  - now apply send_inv.
  - now apply flush_inv.
  - now apply close_inv.
  - now apply flush_inv.
  - now apply _flush_loop_drain_inv.
  - now apply _flush_loop_send_inv.
Qed.

(** C6: [_buffer_size] is the sum of the sizes of the buffered entries.  It
    holds for a fresh producer and every operation keeps it: an admission by
    [send] (other threads keeping it while the caller waits), a drain, and
    with them [flush], a pass of the flush thread and [close]; so it holds
    after every run of calls. *)
Theorem buffer_size_is_sum_of_entry_sizes :
  forall cfg sink,
    (forall mono wall, buffer_inv (AsyncProducer_init mono wall))
    /\ (forall p, buffer_inv p ->
          (forall fs ts ws, wakeups_keep buffer_inv ws ->
             buffer_inv (snd (send cfg fs ts ws p)))
          /\ buffer_inv (snd (_drain_buffer p))
          /\ buffer_inv (snd (flush cfg sink p))
          /\ buffer_inv (_flush_loop_pass cfg sink p)
          /\ (forall t fp, buffer_inv (snd (close cfg sink t fp p))))
    /\ (forall cs mono wall, calls_keep buffer_inv cs ->
          buffer_inv (run_calls cfg sink cs (AsyncProducer_init mono wall))).
Proof.
  intros cfg sink. split; [reflexivity|]. split.
  - intros p Hp. repeat split; intros.
    + now apply send_inv.
    + now apply _drain_buffer_inv.
    + now apply flush_inv.
    + now apply flush_inv.
    + now apply close_inv.
  - intros cs mono wall.
    assert (G : forall p, calls_keep buffer_inv cs -> buffer_inv p ->
                  buffer_inv (run_calls cfg sink cs p)).
    { induction cs as [|c cs IH]; intros p Hk Hp; [exact Hp|].
      inversion Hk; subst. cbn [run_calls fold_left].
      apply IH; [assumption|].
      apply run_call_inv; [repeat constructor|]; assumption. }
    intros Hk. apply G; [exact Hk|reflexivity].
Qed.

Lemma buffer_size_is_sum_of_entry_sizes_witness :
  buffer_inv
    (run_calls default_config (fun _ => PutOk)
       [CallSend [([104; 105], [33])]%N None []; FlushThreadPass;
        CallSend [] (Some 7) [fun q => q]; CallClose 60000 true]
       (AsyncProducer_init 0 0)).
Proof.
  apply (proj2 (proj2 (buffer_size_is_sum_of_entry_sizes default_config
                         (fun _ => PutOk)))).
  repeat constructor. intros q Hq; exact Hq.
Defined.

(** ** Admission *)

Lemma send_append_spec cfg entry p :
  exists q,
    send_append cfg entry p = (Return tt, q)
    /\ _buffer q = _buffer p ++ [entry]
    /\ _buffer_size q = _buffer_size p + size entry
    /\ _closed q = _closed p /\ _stats q = _stats p
    /\ put_calls q = put_calls p /\ delivered q = delivered p.
Proof.
  unfold send_append. unfold_method. cbn [fst snd].
  match goal with |- context [if ?c then _ else _] => destruct c end;
    eexists; repeat split.
Qed.


(** A [send] that finds room: the entry is appended whole. *)
Lemma send_fits cfg fs ts ws p :
  _closed p = false ->
  _buffer_size p + size (entry_of fs ts p) <= total_size_bytes cfg ->
  exists q,
    send cfg fs ts ws p = (Return true, q)
    /\ _buffer q = _buffer p ++ [entry_of fs ts p]
    /\ _buffer_size q = _buffer_size p + size (entry_of fs ts p)
    /\ _closed q = false /\ _stats q = _stats p
    /\ put_calls q = put_calls p /\ delivered q = delivered p.
Proof.
  intros Hc Hfit. unfold send. unfold bind at 1. unfold get. rewrite Hc.
  fold (entry_of fs ts p). unfold bind at 1.
  unfold send_admission, overflows.
  destruct (Z.ltb_spec (total_size_bytes cfg)
              (_buffer_size p + size (entry_of fs ts p))) as [H|H]; [lia|].
  destruct (send_append_spec cfg (entry_of fs ts p) p)
    as (q & E & Hb & Hs & Hcl & Hst & Hpc & Hd).
  unfold bind at 1. rewrite E. exists q. unfold ret.
  repeat split; try assumption. congruence.
Qed.

(** A non-blocking [send] that finds no room: the entry is dropped whole. *)
Lemma send_full_nonblocking cfg fs ts ws p :
  _closed p = false -> max_block_sec cfg <= 0 ->
  total_size_bytes cfg < _buffer_size p + size (entry_of fs ts p) ->
  send cfg fs ts ws p = (Return false, drop_entry p).
Proof.
  intros Hc Hblock Hfull. unfold send. unfold bind at 1. unfold get.
  rewrite Hc. fold (entry_of fs ts p). unfold bind at 1.
  unfold send_admission, overflows.
  destruct (Z.ltb_spec (total_size_bytes cfg)
              (_buffer_size p + size (entry_of fs ts p))) as [H|H]; [|lia].
  destruct (Z.leb_spec (max_block_sec cfg) 0); [reflexivity|lia].
Qed.

Lemma send_nonblocking_bound cfg fs ts ws p :
  max_block_sec cfg <= 0 ->
  _buffer_size p <= total_size_bytes cfg ->
  _buffer_size (snd (send cfg fs ts ws p)) <= total_size_bytes cfg.
Proof.
  intros Hblock Hp. destruct (_closed p) eqn:Hc.
  - now rewrite send_closed.
  - destruct (Z.le_gt_cases (_buffer_size p + size (entry_of fs ts p))
                (total_size_bytes cfg)) as [Hfit|Hfull].
    + destruct (send_fits cfg fs ts ws p Hc Hfit) as (q & E & _ & Hs & _).
      rewrite E. cbn [snd]. lia.
    + rewrite send_full_nonblocking by assumption. exact Hp.
Qed.

Lemma flush_bound cfg sink p :
  0 <= total_size_bytes cfg ->
  _buffer_size p <= total_size_bytes cfg ->
  _buffer_size (snd (flush cfg sink p)) <= total_size_bytes cfg.
Proof.
  intros Hcap Hp.
  pose proof (flush_queue cfg sink p) as (_ & _ & Hsame & Hzero).
  cbn zeta in *. destruct (_buffer p) eqn:E.
  - now rewrite Hsame.
  - rewrite Hzero by discriminate. exact Hcap.
Qed.

Lemma _flush_loop_drain_bound cfg p :
  0 <= total_size_bytes cfg ->
  _buffer_size p <= total_size_bytes cfg ->
  _buffer_size (_flush_loop_drain p) <= total_size_bytes cfg.
Proof.
  intros Hcap Hp.
  destruct (_flush_loop_drain_cases p) as [E|(_ & _ & E)]; rewrite E;
    [exact Hp|exact Hcap].
Qed.

Lemma _flush_loop_send_bound cfg sink p :
  _buffer_size p <= total_size_bytes cfg ->
  _buffer_size (_flush_loop_send cfg sink p) <= total_size_bytes cfg.
Proof.
  intros Hp. destruct (_flush_loop_send_queue cfg sink p) as (_ & E & _).
  now rewrite E.
Qed.

Lemma run_calls_nonblocking_bound cfg sink cs :
  max_block_sec cfg <= 0 -> 0 <= total_size_bytes cfg ->
  forall p, _buffer_size p <= total_size_bytes cfg ->
            _buffer_size (run_calls cfg sink cs p) <= total_size_bytes cfg.
Proof.
  intros Hblock Hcap. induction cs as [|c cs IH]; intros p Hp; [exact Hp|].
  cbn [run_calls fold_left]. apply IH.
  destruct c as [fs ts ws| |t fp| | |]; cbn [run_call].
  - now apply send_nonblocking_bound.
  - now apply flush_bound.
  - destruct (_closed p) eqn:Hc.
    + now rewrite close_closed.
    + rewrite close_running by assumption. apply flush_bound; [exact Hcap|].
      apply (closing_keeps cfg sink
               (fun q => _buffer_size q <= total_size_bytes cfg)).
      * exact Hp.
      * intros q. now apply _flush_loop_drain_bound.
      * intros q. apply _flush_loop_send_bound.
  - now apply flush_bound.
  - now apply _flush_loop_drain_bound.
  - now apply _flush_loop_send_bound.
Qed.

(** C5: with a block duration of zero, [send] on a running producer either
    finds room and appends the entry whole, the buffer staying within
    capacity, or finds none and drops the entry whole: it returns [False],
    the drop counter goes up by one and the buffer is as before.  Hence the
    buffer never exceeds a non-negative capacity, whatever the calls.  With
    capacity 1000 and three entries of size 400 sent to a fresh producer,
    the first two are accepted and the third is dropped, [drop_count]
    becoming 1. *)
Theorem nonblocking_send_never_exceeds_capacity :
  forall cfg,
    max_block_sec cfg = 0 ->
    (forall fs ts ws p,
        _closed p = false ->
        let entry := entry_of fs ts p in
        let r := send cfg fs ts ws p in
        (_buffer_size p + size entry <= total_size_bytes cfg ->
           fst r = Return true
           /\ _buffer (snd r) = _buffer p ++ [entry]
           /\ _buffer_size (snd r) = _buffer_size p + size entry
           /\ _buffer_size (snd r) <= total_size_bytes cfg
           /\ stats (snd r) = stats p)
        /\ (total_size_bytes cfg < _buffer_size p + size entry ->
              fst r = Return false
              /\ _buffer (snd r) = _buffer p
              /\ _buffer_size (snd r) = _buffer_size p
              /\ drop_count (stats (snd r)) = drop_count (stats p) + 1))
    /\ (forall sink cs mono wall,
          0 <= total_size_bytes cfg ->
          _buffer_size (run_calls cfg sink cs (AsyncProducer_init mono wall))
          <= total_size_bytes cfg)
    /\ (forall f1 f2 f3 t1 t2 t3 mono wall,
          total_size_bytes cfg = 1000 ->
          fields_size f1 = 400 -> fields_size f2 = 400 ->
          fields_size f3 = 400 ->
          let r1 := send cfg f1 t1 [] (AsyncProducer_init mono wall) in
          let r2 := send cfg f2 t2 [] (snd r1) in
          let r3 := send cfg f3 t3 [] (snd r2) in
          fst r1 = Return true /\ fst r2 = Return true
          /\ fst r3 = Return false
          /\ _buffer_size (snd r2) = 800
          /\ drop_count (stats (snd r2)) = 0
          /\ drop_count (stats (snd r3)) = 1
          /\ _buffer (snd r3) = _buffer (snd r2)
          /\ List.length (_buffer (snd r3)) = 2%nat).
Proof.
  intros cfg Hblock. split; [|split].
  - intros fs ts ws p Hc entry r. split.
    + intros Hfit. subst entry.
      destruct (send_fits cfg fs ts ws p Hc Hfit)
        as (q & E & Hb & Hs & _ & Hst & _).
      subst r. rewrite E. cbn [fst snd]. unfold stats.
      repeat split; try assumption. lia.
    + intros Hfull. subst r.
      rewrite send_full_nonblocking by (assumption || lia).
      repeat split.
  - intros sink cs mono wall Hcap.
    apply run_calls_nonblocking_bound; [lia|exact Hcap|exact Hcap].
  - intros f1 f2 f3 t1 t2 t3 mono wall Hcap H1 H2 H3 r1 r2 r3.
    set (p0 := AsyncProducer_init mono wall) in *.
    assert (S1 : size (entry_of f1 t1 p0) = 400).
    { unfold entry_of, LogEntry_init. cbn. exact H1. }
    destruct (send_fits cfg f1 t1 [] p0 eq_refl)
      as (q1 & E1 & Hb1 & Hs1 & Hc1 & Hst1 & _).
    { rewrite S1, Hcap. cbn. lia. }
    assert (S2 : size (entry_of f2 t2 q1) = 400).
    { unfold entry_of, LogEntry_init. cbn. exact H2. }
    destruct (send_fits cfg f2 t2 [] q1 Hc1)
      as (q2 & E2 & Hb2 & Hs2 & Hc2 & Hst2 & _).
    { rewrite S2, Hs1, S1, Hcap. cbn. lia. }
    assert (S3 : size (entry_of f3 t3 q2) = 400).
    { unfold entry_of, LogEntry_init. cbn. exact H3. }
    assert (E3 : send cfg f3 t3 [] q2 = (Return false, drop_entry q2)).
    { apply send_full_nonblocking; [exact Hc2|lia|].
      rewrite S3, Hs2, S2, Hs1, S1, Hcap. cbn. lia. }
    subst r1 r2 r3. rewrite E1. cbn [fst snd]. rewrite E2. cbn [fst snd].
    rewrite E3. cbn [fst snd]. unfold stats.
    repeat split.
    + rewrite Hs2, S2, Hs1, S1. reflexivity.
    + rewrite Hst2, Hst1. reflexivity.
    + cbn. rewrite Hst2, Hst1. reflexivity.
    + cbn. rewrite Hb2, Hb1. reflexivity.
Qed.

Lemma nonblocking_send_never_exceeds_capacity_witness :
  let r1 := send config_capacity_1000 fields_400 None []
              (AsyncProducer_init 0 0) in
  let r2 := send config_capacity_1000 fields_400 None [] (snd r1) in
  let r3 := send config_capacity_1000 fields_400 None [] (snd r2) in
  fst r1 = Return true /\ fst r2 = Return true
  /\ fst r3 = Return false
  /\ _buffer_size (snd r2) = 800
  /\ drop_count (stats (snd r2)) = 0
  /\ drop_count (stats (snd r3)) = 1
  /\ _buffer (snd r3) = _buffer (snd r2)
  /\ List.length (_buffer (snd r3)) = 2%nat.
Proof.
  apply (proj2 (proj2 (nonblocking_send_never_exceeds_capacity
                         config_capacity_1000 eq_refl))
           fields_400 fields_400 fields_400 None None None 0 0);
    reflexivity.
Defined.

(** ** send returns *)

(** The waiting loop ends: when the wake-ups are used up the wait runs to
    its time-out, and the next test of the clock drops the entry. *)
Lemma send_wait_returns cfg entry deadline :
  forall ws fuel p,
    (length ws + 2 <= fuel)%nat ->
    exists b q, send_wait cfg fuel entry deadline ws p = (Return b, q).
Proof.
  induction ws as [|w ws IH]; intros fuel p Hfuel.
  - destruct fuel as [|[|fuel]]; cbn [length] in Hfuel; try lia.
    cbn [send_wait]. destruct (overflows cfg entry p) eqn:Ho; [|eauto].
    destruct (Z.leb_spec (deadline - monotonic_us p) 0); [eauto|].
    cbn [wait_not_full]. unfold overflows in *.
    cbn [_buffer_size set_monotonic monotonic_us]. rewrite Ho.
    match goal with
    | |- context [if ?c then _ else _] =>
        replace c with true by (symmetry; apply Z.leb_le; lia)
    end.
    eauto.
  - destruct fuel as [|fuel]; cbn [length] in Hfuel; try lia.
    cbn [send_wait]. destruct (overflows cfg entry p); [|eauto].
    destruct (deadline - monotonic_us p <=? 0); [eauto|].
    cbn [wait_not_full]. apply IH. lia.
Qed.

(** [send] always returns, with [True] or [False]: it never raises and
    never stays blocked. *)
Lemma send_returns cfg fs ts ws p :
  exists b q, send cfg fs ts ws p = (Return b, q).
Proof.
  unfold send. unfold bind at 1. unfold get.
  destruct (_closed p); [unfold ret; eauto|].
  fold (entry_of fs ts p). unfold bind at 1.
  assert (Ha : exists b q,
            send_admission cfg (entry_of fs ts p) ws p = (Return b, q)).
  { unfold send_admission. destruct (overflows cfg _ p); [|eauto].
    destruct (max_block_sec cfg <=? 0); [eauto|].
    apply send_wait_returns. lia. }
  destruct Ha as (b & q & ->). destruct b; [|unfold ret; eauto].
  destruct (send_append_spec cfg (entry_of fs ts p) q) as (q' & E & _).
  unfold bind. rewrite E. unfold ret. eauto.
Qed.

(** ** An entry larger than the whole capacity *)

Lemma oversize_overflows cfg entry p :
  total_size_bytes cfg < size entry -> nonneg_buffer p ->
  overflows cfg entry p = true.
Proof.
  unfold overflows, nonneg_buffer. intros. apply Z.ltb_lt. lia.
Qed.

(** The waiting loop on an oversize entry ends by time-out, at or after the
    deadline, whatever the wake-ups. *)
Lemma send_wait_oversize cfg entry deadline :
  total_size_bytes cfg < size entry ->
  forall ws fuel p,
    (List.length ws + 2 <= fuel)%nat ->
    nonneg_buffer p -> wakeups_keep nonneg_buffer ws ->
    exists q,
      send_wait cfg fuel entry deadline ws p = (Return false, drop_entry q)
      /\ deadline <= monotonic_us q
      /\ (ws = [] -> monotonic_us p <= deadline ->
          q = set_monotonic deadline p).
Proof.
  intros Hbig. induction ws as [|w ws IH]; intros fuel p Hfuel Hp Hws.
  - destruct fuel as [|[|fuel]]; cbn [List.length] in Hfuel; try lia.
    cbn [send_wait]. rewrite (oversize_overflows cfg entry p Hbig Hp).
    destruct (Z.leb_spec (deadline - monotonic_us p) 0) as [Hle|Hgt].
    + exists p. repeat split; [lia|]. intros _ Hm.
      assert (monotonic_us p = deadline) as <- by lia. now destruct p.
    + cbn [wait_not_full].
      replace (monotonic_us p + (deadline - monotonic_us p)) with deadline
        by lia.
      set (p' := set_monotonic deadline p).
      assert (Hp' : nonneg_buffer p') by exact Hp.
      rewrite (oversize_overflows cfg entry p' Hbig Hp').
      replace (deadline - monotonic_us p') with 0 by (cbn; lia).
      cbn. exists p'. repeat split. cbn; lia.
  - destruct fuel as [|fuel]; cbn [List.length] in Hfuel; try lia.
    inversion Hws as [|? ? Hw Hws']; subst.
    cbn [send_wait]. rewrite (oversize_overflows cfg entry p Hbig Hp).
    destruct (Z.leb_spec (deadline - monotonic_us p) 0) as [Hle|Hgt].
    + exists p. repeat split; [lia|discriminate].
    + cbn [wait_not_full].
      destruct (IH fuel (w p)) as (q & E & Hq & _); auto; [lia|].
      exists q. repeat split; auto. discriminate.
Qed.

(** C10: an entry whose own size exceeds the capacity is never admitted.
    With no block duration [send] drops it at once.  With a positive block
    duration the caller waits: however other threads change the buffer in
    the meantime, the call returns [False] only once the clock has reached
    the deadline (start plus the block duration), adding one to the drop
    counter of the state it finds; undisturbed, even on an empty buffer, it
    waits the whole block duration and then drops the entry. *)
Theorem oversize_entry_never_admitted :
  forall cfg fs ts ws p,
    _closed p = false ->
    total_size_bytes cfg < size (entry_of fs ts p) ->
    nonneg_buffer p ->
    wakeups_keep nonneg_buffer ws ->
    (max_block_sec cfg <= 0 ->
       send cfg fs ts ws p = (Return false, drop_entry p)
       /\ drop_count (stats (snd (send cfg fs ts ws p)))
          = drop_count (stats p) + 1)
    /\ (0 < max_block_sec cfg ->
          let deadline := monotonic_us p + max_block_sec cfg * 1000000 in
          exists q,
            send cfg fs ts ws p = (Return false, drop_entry q)
            /\ deadline <= monotonic_us q
            /\ drop_count (stats (snd (send cfg fs ts ws p)))
               = drop_count (stats q) + 1
            /\ (ws = [] ->
                send cfg fs ts ws p
                = (Return false, drop_entry (set_monotonic deadline p)))).
Proof.
  intros cfg fs ts ws p Hc Hbig Hp Hws. split.
  - intros Hblock.
    assert (E : send cfg fs ts ws p = (Return false, drop_entry p)).
    { apply send_full_nonblocking; auto. unfold nonneg_buffer in Hp. lia. }
    rewrite E. split; reflexivity.
  - intros Hblock deadline.
    destruct (send_wait_oversize cfg (entry_of fs ts p) deadline Hbig ws
                (S (S (List.length ws))) p) as (q & E & Hq & Hlone);
      auto; [lia|].
    assert (Es : send cfg fs ts ws p = (Return false, drop_entry q)).
    { unfold send. unfold bind at 1. unfold get. rewrite Hc.
      fold (entry_of fs ts p). unfold bind at 1.
      unfold send_admission.
      rewrite (oversize_overflows cfg _ p Hbig Hp).
      destruct (Z.leb_spec (max_block_sec cfg) 0); [lia|].
      fold deadline. rewrite E. reflexivity. }
    exists q. rewrite Es. repeat split; auto.
    intros Hnil. rewrite Hlone; auto. subst deadline. lia.
Qed.

Lemma oversize_entry_never_admitted_witness :
  send config_blocking_small fields_400 None [] (AsyncProducer_init 0 0)
  = (Return false,
     drop_entry (set_monotonic 3000000 (AsyncProducer_init 0 0))).
Proof.
  destruct (proj2 (oversize_entry_never_admitted config_blocking_small
                     fields_400 None [] (AsyncProducer_init 0 0)
                     eq_refl eq_refl
                     ltac:(unfold nonneg_buffer; cbn; lia)
                     ltac:(constructor)) eq_refl)
    as (q & _ & _ & _ & H).
  exact (H eq_refl).
Defined.

(** ** Properties the dispatcher preserves *)

Section DispatchInvariant.

Variable cfg : CLSConfig.
Variable sink : nat -> put_result.
Variable J : AsyncProducer -> Prop.
Hypothesis J_sleep : forall ms p, J p -> J (snd (sleep_ms ms p)).
Hypothesis J_stats : forall s p, J p -> J (set_stats s p).





End DispatchInvariant.

(** ** Entry sizes *)


Lemma Forall_snoc {A : Type} (P : A -> Prop) (l : list A) x :
  Forall P l -> P x -> Forall P (l ++ [x]).
Proof.
  intros Hl Hx. apply Forall_app. split; [exact Hl|]. now constructor.
Qed.
















(** ** Chunking *)

Lemma for_each_map {A B : Type} (f : A -> B) (body : B -> M unit) xs p :
  for_each (map f xs) body p = for_each xs (fun x => body (f x)) p.
Proof.
  revert p. induction xs as [|x xs IH]; intros p; [reflexivity|].
  cbn [map for_each]. unfold bind.
  destruct (body (f x) p) as [[[]| |] q]; auto.
Qed.

Lemma range_positive_step n s :
  0 < s ->
  range 0 n s
  = Ok (map (fun k => 0 + Z.of_nat k * s)
          (seq 0 (Z.to_nat ((n + s - 1) / s)))).
Proof.
  intros Hs. unfold range, range_count.
  destruct (Z.eqb_spec s 0); [lia|].
  destruct (Z.ltb_spec 0 s); [|lia].
  now replace (n - 0 + s - 1) with (n + s - 1) by lia.
Qed.

Lemma range_upto n :
  range 0 n 1 = Ok (map Z.of_nat (seq 0 (Z.to_nat n))).
Proof.
  rewrite range_positive_step by lia. f_equal.
  replace ((n + 1 - 1) / 1) with n by (rewrite Z.div_1_r; lia).
  apply map_ext. intros k. lia.
Qed.

Lemma len_nil_iff {A : Type} (l : list A) : len l <= 0 -> l = [].
Proof.
  unfold len. destruct l; [reflexivity|cbn [List.length]; lia].
Qed.

Lemma len_skipn {A : Type} (l : list A) s :
  0 <= s -> len (skipn (Z.to_nat s) l) = Z.max 0 (len l - s).
Proof.
  intros Hs. unfold len. rewrite length_skipn. lia.
Qed.

Lemma count_step n s :
  0 < s -> 0 < n ->
  Z.to_nat ((n + s - 1) / s)
  = S (Z.to_nat ((Z.max 0 (n - s) + s - 1) / s)).
Proof.
  intros Hs Hn. destruct (Z.le_gt_cases n s) as [Hle|Hgt].
  - replace (Z.max 0 (n - s)) with 0 by lia.
    replace ((0 + s - 1) / s) with 0 by (symmetry; apply Z.div_small; lia).
    replace ((n + s - 1) / s) with 1; [reflexivity|].
    apply Z.div_unique with (r := n - 1); lia.
  - replace (Z.max 0 (n - s)) with (n - s) by lia.
    replace (n + s - 1) with ((n - s + s - 1) + 1 * s) by lia.
    rewrite Z.div_add by lia.
    assert (0 <= (n - s + s - 1) / s) by (apply Z.div_pos; lia).
    lia.
Qed.

Lemma slice_shift {A : Type} (l : list A) s k :
  0 < s ->
  slice l (0 + Z.of_nat (S k) * s) (0 + Z.of_nat (S k) * s + s)
  = slice (skipn (Z.to_nat s) l) (0 + Z.of_nat k * s)
      (0 + Z.of_nat k * s + s).
Proof.
  intros Hs. unfold slice. rewrite skipn_skipn. f_equal; [f_equal; lia|].
  f_equal. nia.
Qed.

(** The slices cover the list, in order, each holding between one and [s]
    entries. *)
Lemma slices_cover {A : Type} s :
  0 < s ->
  forall c (l : list A),
    Z.to_nat ((len l + s - 1) / s) = c ->
    let chunks :=
      map (fun i => slice l i (i + s))
        (map (fun k => 0 + Z.of_nat k * s) (seq 0 c)) in
    concat chunks = l
    /\ Forall (fun ch => 1 <= len ch <= s) chunks.
Proof.
  intros Hs. induction c as [|c IH]; intros l Hc.
  - cbn. split; [|constructor].
    symmetry. apply len_nil_iff.
    destruct (Z.le_gt_cases (len l) 0) as [H|H]; [exact H|].
    rewrite (count_step (len l) s Hs H) in Hc. discriminate.
  - assert (Hpos : 0 < len l).
    { destruct (Z.le_gt_cases (len l) 0) as [H|H]; [|exact H].
      replace ((len l + s - 1) / s) with 0 in Hc; [discriminate|].
      unfold len in *. assert (List.length l = 0%nat) as -> by lia.
      symmetry. apply Z.div_small. lia. }
    rewrite (count_step (len l) s Hs Hpos) in Hc.
    injection Hc as Hc. rewrite <- (len_skipn l s) in Hc by lia.
    destruct (IH (skipn (Z.to_nat s) l) Hc) as [Hcat Hall].
    cbn zeta in *. cbn [seq map concat]. rewrite <- seq_shift.
    rewrite !map_map in *.
    rewrite (map_ext _ _ (fun k => slice_shift l s k Hs)).
    split.
    + rewrite Hcat. unfold slice. cbn [Z.of_nat Z.mul Z.add].
      replace (Z.to_nat (s - 0)) with (Z.to_nat s) by lia.
      cbn [Z.to_nat skipn]. apply firstn_skipn.
    + constructor; [|exact Hall].
      unfold slice, len in *. cbn [Z.of_nat Z.mul Z.add].
      replace (Z.to_nat (s - 0)) with (Z.to_nat s) by lia.
      cbn [Z.to_nat skipn]. rewrite length_firstn. lia.
Qed.

Lemma batch_chunks_cover cfg entries :
  1 <= max_batch_count cfg ->
  concat (batch_chunks cfg entries) = entries
  /\ Forall (fun ch => 1 <= len ch <= max_batch_count cfg)
       (batch_chunks cfg entries).
Proof.
  intros Hs. unfold batch_chunks. rewrite range_positive_step by lia.
  apply (slices_cover (max_batch_count cfg) ltac:(lia) _ entries eq_refl).
Qed.

Lemma _send_batch_chunks cfg sink entries p :
  1 <= max_batch_count cfg ->
  _send_batch cfg sink entries p
  = for_each (batch_chunks cfg entries) (_send_chunk cfg sink) p.
Proof.
  intros Hs. unfold _send_batch, batch_chunks.
  rewrite range_positive_step by lia. rewrite !for_each_map. reflexivity.
Qed.

(** ** Delivery to a sink that accepts *)

Lemma first_attempt cfg :
  0 <= retries cfg ->
  exists rest, range 0 (retries cfg + 1) 1 = Ok (0 :: rest).
Proof.
  intros Hr. rewrite range_upto.
  replace (Z.to_nat (retries cfg + 1)) with (S (Z.to_nat (retries cfg)))
    by lia.
  cbn [seq map]. eexists. reflexivity.
Qed.

Lemma _send_chunk_ok cfg sink chunk p :
  0 <= retries cfg ->
  sink (length (put_calls p)) = PutOk ->
  _send_chunk cfg sink chunk p = (Return tt, chunk_delivered chunk p).
Proof.
  intros Hr Hok. unfold _send_chunk.
  destruct (first_attempt cfg Hr) as (rest & ->).
  cbn [_send_chunk_loop]. unfold bind at 1. unfold put_log_raw.
  rewrite Hok. reflexivity.
Qed.

Lemma for_each_chunks_ok cfg sink chunks :
  0 <= retries cfg -> (forall n, sink n = PutOk) ->
  forall p,
    for_each chunks (_send_chunk cfg sink) p
    = (Return tt, chunks_delivered chunks p).
Proof.
  intros Hr Hok. induction chunks as [|c chunks IH]; intros p;
    [reflexivity|].
  cbn [for_each]. unfold bind.
  rewrite (_send_chunk_ok cfg sink c p Hr (Hok _)). apply IH.
Qed.

Lemma chunks_delivered_spec chunks :
  forall p,
    let q := chunks_delivered chunks p in
    delivered q = delivered p ++ chunks
    /\ put_calls q = put_calls p ++ chunks
    /\ log_count (_stats q) = log_count (_stats p) + len (concat chunks)
    /\ send_success (_stats q) = send_success (_stats p) + len chunks
    /\ send_fail (_stats q) = send_fail (_stats p)
    /\ drop_count (_stats q) = drop_count (_stats p)
    /\ same_queue p q
    /\ slept_ms q = slept_ms p.
Proof.
  induction chunks as [|c chunks IH]; intros p.
  - cbn. rewrite !app_nil_r. repeat split; lia.
  - cbn [chunks_delivered fold_left].
    destruct (IH (chunk_delivered c p))
      as (Hd & Hp & Hl & Hs & Hf & Hdr & (Hb & Hbs & Hc) & Hsl).
    cbn zeta. fold (chunks_delivered chunks (chunk_delivered c p)).
    rewrite Hd, Hp, Hl, Hs, Hf, Hdr, Hsl. cbn [concat].
    unfold len in *. rewrite length_app.
    unfold same_queue. rewrite Hb, Hbs, Hc. cbn.
    rewrite <- !app_assoc. cbn [app].
    repeat split; unfold len; lia.
Qed.

Lemma _send_batch_ok cfg sink entries p :
  1 <= max_batch_count cfg -> 0 <= retries cfg ->
  (forall n, sink n = PutOk) ->
  _send_batch cfg sink entries p
  = (Return tt, chunks_delivered (batch_chunks cfg entries) p).
Proof.
  intros Hs Hr Hok. rewrite _send_batch_chunks by assumption.
  now apply for_each_chunks_ok.
Qed.

(** C7: with a maximum of at least one entry per chunk, [_send_batch]
    dispatches the drained entries as consecutive chunks, each non-empty and
    of at most [max_batch_count] entries, which put end to end are the
    drained sequence; each chunk is cut before its delivery is attempted
    and handed whole to [_send_chunk].  A sink that accepts receives exactly
    these chunks in this order.  For 5 buffered entries and
    [max_batch_count = 2] a flush delivers 3 chunks of 2, 2 and 1 entries in
    the original order. *)
Theorem send_batch_chunks_cover_in_order :
  forall cfg sink entries,
    1 <= max_batch_count cfg ->
    (forall p,
        _send_batch cfg sink entries p
        = for_each (batch_chunks cfg entries) (_send_chunk cfg sink) p)
    /\ concat (batch_chunks cfg entries) = entries
    /\ Forall (fun chunk => 1 <= len chunk <= max_batch_count cfg)
         (batch_chunks cfg entries)
    /\ (0 <= retries cfg -> (forall n, sink n = PutOk) ->
        forall p,
          fst (_send_batch cfg sink entries p) = Return tt
          /\ put_calls (snd (_send_batch cfg sink entries p))
             = put_calls p ++ batch_chunks cfg entries
          /\ delivered (snd (_send_batch cfg sink entries p))
             = delivered p ++ batch_chunks cfg entries)
    /\ (max_batch_count cfg = 2 ->
        forall e1 e2 e3 e4 e5,
          batch_chunks cfg [e1; e2; e3; e4; e5]
          = [[e1; e2]; [e3; e4]; [e5]]
          /\ (0 <= retries cfg -> (forall n, sink n = PutOk) ->
              forall p,
                _buffer p = [e1; e2; e3; e4; e5] ->
                delivered (snd (flush cfg sink p))
                = delivered p ++ [[e1; e2]; [e3; e4]; [e5]])).
Proof.
  intros cfg sink entries Hs.
  destruct (batch_chunks_cover cfg entries Hs) as [Hcat Hall].
  split; [intros p; now apply _send_batch_chunks|].
  split; [exact Hcat|]. split; [exact Hall|]. split.
  - intros Hr Hok p. rewrite _send_batch_ok by assumption. cbn [fst snd].
    destruct (chunks_delivered_spec (batch_chunks cfg entries) p)
      as (Hd & Hp & _).
    repeat split; assumption.
  - intros H2 e1 e2 e3 e4 e5.
    assert (E : batch_chunks cfg [e1; e2; e3; e4; e5]
                = [[e1; e2]; [e3; e4]; [e5]]).
    { unfold batch_chunks. rewrite H2. reflexivity. }
    split; [exact E|]. intros Hr Hok p Hb.
    unfold flush, bind, _drain_buffer. rewrite Hb.
    rewrite _send_batch_ok by assumption. rewrite E. cbn.
    rewrite <- !app_assoc. reflexivity.
Qed.

Lemma send_batch_chunks_cover_in_order_witness :
  delivered
    (snd (flush config_chunks_of_2 (fun _ => PutOk)
            (set_buffer
               [bare_entry 1; bare_entry 2; bare_entry 3; bare_entry 4;
                bare_entry 5]
               (AsyncProducer_init 0 0))))
  = [[bare_entry 1; bare_entry 2]; [bare_entry 3; bare_entry 4];
     [bare_entry 5]].
Proof.
  apply (proj2 (proj2 (proj2 (proj2 (proj2
           (send_batch_chunks_cover_in_order config_chunks_of_2
              (fun _ => PutOk) [] ltac:(cbn; lia))))) eq_refl
           (bare_entry 1) (bare_entry 2) (bare_entry 3) (bare_entry 4)
           (bare_entry 5))
           ltac:(cbn; lia) (fun _ => eq_refl)
           (set_buffer
              [bare_entry 1; bare_entry 2; bare_entry 3; bare_entry 4;
               bare_entry 5]
              (AsyncProducer_init 0 0))
           eq_refl).
Defined.

(** ** Retries and backoff *)

Lemma backoff_at_succ cfg k :
  0 <= base_retry_backoff_ms cfg -> 0 <= max_retry_backoff_ms cfg ->
  next_backoff cfg (backoff_at cfg k) = backoff_at cfg (S k).
Proof.
  intros Hb Hm. unfold next_backoff, backoff_at.
  replace (Z.of_nat (S k)) with (Z.succ (Z.of_nat k)) by lia.
  rewrite Z.pow_succ_r by lia.
  assert (0 <= 2 ^ Z.of_nat k) by (apply Z.pow_nonneg; lia).
  lia.
Qed.

Lemma backoffs_closed_form cfg :
  0 <= base_retry_backoff_ms cfg -> 0 <= max_retry_backoff_ms cfg ->
  forall m k, backoffs cfg (backoff_at cfg k) m
              = map (backoff_at cfg) (seq k m).
Proof.
  intros Hb Hm. induction m as [|m IH]; intros k; [reflexivity|].
  cbn [backoffs seq map]. rewrite backoff_at_succ by assumption.
  now rewrite IH.
Qed.

Lemma backoff_at_0 cfg :
  base_retry_backoff_ms cfg <= max_retry_backoff_ms cfg ->
  backoff_at cfg 0 = base_retry_backoff_ms cfg.
Proof. intros H. unfold backoff_at. cbn. lia. Qed.

Lemma backoff_at_monotone cfg k :
  0 <= base_retry_backoff_ms cfg ->
  backoff_at cfg k <= backoff_at cfg (S k)
  /\ backoff_at cfg k <= max_retry_backoff_ms cfg.
Proof.
  intros Hb. unfold backoff_at.
  replace (Z.of_nat (S k)) with (Z.succ (Z.of_nat k)) by lia.
  rewrite Z.pow_succ_r by lia.
  assert (0 <= 2 ^ Z.of_nat k) by (apply Z.pow_nonneg; lia).
  nia.
Qed.

Lemma next_backoff_nonneg cfg b :
  0 <= b -> 0 <= max_retry_backoff_ms cfg -> 0 <= next_backoff cfg b.
Proof. unfold next_backoff. lia. Qed.

(** [m] retried failures in a row, with attempts to spare: the loop sleeps
    [backoffs b m] and goes on with the next attempt. *)
Lemma _send_chunk_loop_retries cfg sink chunk :
  0 <= max_retry_backoff_ms cfg ->
  forall m a n b p,
    0 <= b ->
    (forall k, (k < m)%nat ->
               retried (sink (length (put_calls p) + k)%nat) = true) ->
    Z.of_nat a + Z.of_nat m <= retries cfg ->
    exists q,
      _send_chunk_loop cfg sink (map Z.of_nat (seq a (m + n))) b chunk p
      = _send_chunk_loop cfg sink (map Z.of_nat (seq (a + m) n))
          (Nat.iter m (next_backoff cfg) b) chunk q
      /\ 0 <= Nat.iter m (next_backoff cfg) b
      /\ slept_ms q = slept_ms p ++ backoffs cfg b m
      /\ put_calls q = put_calls p ++ repeat chunk m
      /\ _stats q = _stats p
      /\ delivered q = delivered p.
Proof.
  intros Hmax. induction m as [|m IH]; intros a n b p Hb Hfail Hroom.
  - exists p. rewrite Nat.add_0_r. cbn. rewrite !app_nil_r.
    repeat split; auto.
  - cbn [Nat.add seq map _send_chunk_loop]. unfold bind at 1.
    unfold put_log_raw.
    pose proof (Hfail 0%nat ltac:(lia)) as H0. rewrite Nat.add_0_r in H0.
    set (p1 := set_put_calls (put_calls p ++ [chunk]) p).
    set (p2 := set_monotonic (monotonic_us p1 + b * 1000)
                 (set_slept_ms (slept_ms p1 ++ [b]) p1)).
    assert (Estep :
      (sleep_ms b ;;
       _send_chunk_loop cfg sink (map Z.of_nat (seq (S a) (m + n)))
         (Z.min (b * 2) (max_retry_backoff_ms cfg)) chunk) p1
      = _send_chunk_loop cfg sink (map Z.of_nat (seq (S a) (m + n)))
          (next_backoff cfg b) chunk p2).
    { unfold bind, sleep_ms. destruct (Z.ltb_spec b 0); [lia|reflexivity]. }
    destruct (IH (S a) n (next_backoff cfg b) p2)
      as (q & E & Hnn & Hsl & Hpc & Hst & Hd).
    { now apply next_backoff_nonneg. }
    { intros k Hk. specialize (Hfail (S k) ltac:(lia)).
      cbn [p2 p1 put_calls set_monotonic set_slept_ms set_put_calls].
      rewrite length_app. cbn [length].
      now replace (length (put_calls p) + 1 + k)%nat
        with (length (put_calls p) + S k)%nat by lia. }
    { lia. }
    exists q. rewrite Nat.iter_succ_r.
    replace (a + S m)%nat with (S a + m)%nat by lia.
    rewrite <- E. split.
    { destruct (sink (length (put_calls p))) as [|code status|];
        cbn [retried] in H0; try discriminate.
      - rewrite H0. cbn [negb orb].
        destruct (Z.leb_spec (retries cfg) (Z.of_nat a)); [lia|].
        exact Estep.
      - destruct (Z.leb_spec (retries cfg) (Z.of_nat a)); [lia|].
        exact Estep. }
    split; [exact Hnn|].
    cbn [backoffs repeat]. rewrite Hsl, Hpc, Hst, Hd.
    cbn [p2 p1 put_calls set_monotonic set_slept_ms set_put_calls slept_ms
         _stats delivered].
    rewrite <- !app_assoc. repeat split.
Qed.

Lemma backoffs_from_base cfg m :
  0 <= base_retry_backoff_ms cfg <= max_retry_backoff_ms cfg ->
  backoffs cfg (base_retry_backoff_ms cfg) m = backoff_seq cfg m.
Proof.
  intros [Hb Hm]. rewrite <- (backoff_at_0 cfg Hm).
  apply backoffs_closed_form; lia.
Qed.

Lemma _send_chunk_loop_success cfg sink chunk attempt rest b p :
  sink (length (put_calls p)) = PutOk ->
  _send_chunk_loop cfg sink (attempt :: rest) b chunk p
  = (Return tt, chunk_delivered chunk p).
Proof.
  intros Hok. cbn [_send_chunk_loop]. unfold bind at 1, put_log_raw.
  now rewrite Hok.
Qed.

Lemma _send_chunk_loop_exhausted cfg sink chunk attempt rest b p :
  retried (sink (length (put_calls p))) = true ->
  retries cfg <= attempt ->
  _send_chunk_loop cfg sink (attempt :: rest) b chunk p
  = (Return tt, chunk_failed chunk p).
Proof.
  intros Hfail Hlast. cbn [_send_chunk_loop]. unfold bind at 1, put_log_raw.
  apply Z.leb_le in Hlast.
  destruct (sink (length (put_calls p))) as [|code status|];
    cbn [retried] in Hfail; try discriminate.
  - now rewrite Hfail, Hlast.
  - now rewrite Hlast.
Qed.

Lemma _send_chunk_loop_fatal cfg sink chunk attempt rest b p :
  classify (sink (length (put_calls p))) = Fatal ->
  _send_chunk_loop cfg sink (attempt :: rest) b chunk p
  = (Return tt, chunk_failed chunk p).
Proof.
  intros Hfatal. cbn [_send_chunk_loop]. unfold bind at 1, put_log_raw.
  destruct (sink (length (put_calls p))) as [|code status|];
    cbn [classify] in Hfatal; try discriminate.
  destruct (retryable code status); [discriminate|reflexivity].
Qed.

(** The first [N] attempts fail and are retried: where the delivery stands
    when it comes to attempt [N]. *)
Lemma _send_chunk_after_retries cfg sink chunk p N :
  0 <= base_retry_backoff_ms cfg -> 0 <= max_retry_backoff_ms cfg ->
  (forall k, (k < N)%nat ->
             retried (sink (length (put_calls p) + k)%nat) = true) ->
  Z.of_nat N <= retries cfg ->
  exists q rest b,
    _send_chunk cfg sink chunk p
    = _send_chunk_loop cfg sink (Z.of_nat N :: rest) b chunk q
    /\ slept_ms q
       = slept_ms p ++ backoffs cfg (base_retry_backoff_ms cfg) N
    /\ put_calls q = put_calls p ++ repeat chunk N
    /\ length (put_calls q) = (length (put_calls p) + N)%nat
    /\ _stats q = _stats p
    /\ delivered q = delivered p.
Proof.
  intros Hb Hmax Hfail HN. unfold _send_chunk. rewrite range_upto.
  replace (Z.to_nat (retries cfg + 1))
    with (N + S (Z.to_nat (retries cfg) - N))%nat by lia.
  destruct (_send_chunk_loop_retries cfg sink chunk Hmax N 0
              (S (Z.to_nat (retries cfg) - N))
              (base_retry_backoff_ms cfg) p Hb Hfail ltac:(lia))
    as (q & E & _ & Hsl & Hpc & Hst & Hd).
  rewrite E. cbn [seq map Nat.add].
  eexists q, _, _. split; [reflexivity|].
  repeat split; try assumption.
  now rewrite Hpc, length_app, repeat_length.
Qed.

Lemma backoffs_nth cfg :
  forall m b k,
    (k < m)%nat -> nth k (backoffs cfg b m) 0 = Nat.iter k (next_backoff cfg) b.
Proof.
  induction m as [|m IH]; intros b k Hk; [lia|].
  destruct k as [|k]; [reflexivity|].
  cbn [backoffs nth]. rewrite IH by lia. now rewrite Nat.iter_succ_r.
Qed.

(** C4, as amended: with a non-negative retry count, base backoff and
    maximum backoff, N consecutive retried failures followed by a success
    (N at most [retries]) send the chunk N + 1 times with N sleeps in
    between, and a chunk whose every attempt fails is sent [retries + 1]
    times with [retries] sleeps.  The sleep before retry 0 is the base
    backoff itself; the sleep before each later retry is the smaller of
    twice the previous sleep and the maximum backoff.  When the base backoff
    does not exceed the maximum, the sleep before retry k is
    [min(base * 2^k, max_backoff)], and the sequence is non-decreasing and
    capped. *)
Theorem backoff_sleeps_double_up_to_cap :
  forall cfg sink chunk p N,
    0 <= retries cfg ->
    0 <= base_retry_backoff_ms cfg ->
    0 <= max_retry_backoff_ms cfg ->
    (forall k, (k < N)%nat ->
               retried (sink (length (put_calls p) + k)%nat) = true) ->
    let p' := snd (_send_chunk cfg sink chunk p) in
    let sleeps := backoffs cfg (base_retry_backoff_ms cfg) in
    (Z.of_nat N <= retries cfg ->
     sink (length (put_calls p) + N)%nat = PutOk ->
     slept_ms p' = slept_ms p ++ sleeps N
     /\ put_calls p' = put_calls p ++ repeat chunk (S N)
     /\ send_success (stats p') = send_success (stats p) + 1
     /\ send_fail (stats p') = send_fail (stats p))
    /\ (retries cfg < Z.of_nat N ->
        slept_ms p' = slept_ms p ++ sleeps (Z.to_nat (retries cfg))
        /\ put_calls p'
           = put_calls p ++ repeat chunk (Z.to_nat (retries cfg + 1))
        /\ len (put_calls p') = len (put_calls p) + (retries cfg + 1)
        /\ send_success (stats p') = send_success (stats p)
        /\ send_fail (stats p') = send_fail (stats p) + 1)
    /\ (forall m, (0 < m)%nat ->
          nth 0 (sleeps m) 0 = base_retry_backoff_ms cfg)
    /\ (forall m k, (S k < m)%nat ->
          nth (S k) (sleeps m) 0
          = Z.min (nth k (sleeps m) 0 * 2) (max_retry_backoff_ms cfg))
    /\ (base_retry_backoff_ms cfg <= max_retry_backoff_ms cfg ->
        (forall m, sleeps m = backoff_seq cfg m)
        /\ (forall k, backoff_at cfg k <= backoff_at cfg (S k)
                      /\ backoff_at cfg k <= max_retry_backoff_ms cfg)).
Proof.
  intros cfg sink chunk p N Hr Hb Hmax Hfail p' sleeps.
  split; [|split; [|split; [|split]]].
  - intros HN Hok.
    destruct (_send_chunk_after_retries cfg sink chunk p N Hb Hmax Hfail HN)
      as (q & rest & b & E & Hsl & Hpc & Hlen & Hst & Hd).
    rewrite _send_chunk_loop_success in E by now rewrite Hlen.
    unfold p', stats. rewrite E. cbn. rewrite Hsl, Hpc, Hst.
    rewrite <- app_assoc, <- repeat_cons. repeat split.
  - intros HN.
    destruct (_send_chunk_after_retries cfg sink chunk p
                (Z.to_nat (retries cfg)) Hb Hmax
                ltac:(intros k Hk; apply Hfail; lia) ltac:(lia))
      as (q & rest & b & E & Hsl & Hpc & Hlen & Hst & Hd).
    rewrite _send_chunk_loop_exhausted in E;
      [|rewrite Hlen; apply Hfail; lia|lia].
    unfold p', stats. rewrite E. cbn. rewrite Hsl, Hpc, Hst.
    rewrite <- app_assoc, <- repeat_cons.
    replace (Z.to_nat (retries cfg + 1))
      with (S (Z.to_nat (retries cfg))) by lia.
    repeat split.
    unfold len. cbn [repeat]. rewrite length_app. cbn [length].
    rewrite repeat_length. lia.
  - intros m Hm. unfold sleeps. now rewrite backoffs_nth.
  - intros m k Hk. unfold sleeps. rewrite !backoffs_nth by lia.
    reflexivity.
  - intros Hle. split.
    + intros m. apply backoffs_from_base. lia.
    + intros k. apply backoff_at_monotone. exact Hb.
Qed.

Lemma backoff_sleeps_double_up_to_cap_witness :
  let p' := snd (_send_chunk default_config sink_always_timeout
                   [bare_entry 1] (AsyncProducer_init 0 0)) in
  slept_ms p' = [100; 200; 400; 800; 1600; 3200; 6400; 12800; 25600; 50000]
  /\ len (put_calls p') = 11
  /\ send_fail (stats p') = 1.
Proof.
  intros p'.
  destruct (proj1 (proj2 (backoff_sleeps_double_up_to_cap
                            default_config sink_always_timeout
                            [bare_entry 1] (AsyncProducer_init 0 0) 20%nat
                            ltac:(cbn; lia) ltac:(cbn; lia) ltac:(cbn; lia)
                            (fun k _ => eq_refl)))
              ltac:(cbn; lia)) as (A & _ & C & _ & E).
  split; [exact A|split; [exact C|exact E]].
Defined.

(** C4, as stated, fails: with a base backoff of 1000 ms above a maximum of
    300 ms and two retries, a chunk that always times out sleeps 1000 ms and
    then 300 ms.  The first sleep is not [min(1000 * 2^0, 300)], and the
    sequence decreases. *)
Lemma backoff_above_cap_counterexample :
  let p' := snd (_send_chunk config_base_above_cap sink_always_timeout
                   [bare_entry 1] (AsyncProducer_init 0 0)) in
  slept_ms p' = [1000; 300]
  /\ length (put_calls p') = 3%nat
  /\ backoff_at config_base_above_cap 0 = 300
  /\ nth 0 (slept_ms p') 0 <> backoff_at config_base_above_cap 0
  /\ nth 1 (slept_ms p') 0 < nth 0 (slept_ms p') 0.
Proof.
  cbv zeta. repeat split; try reflexivity. vm_compute. discriminate.
Qed.

(** ** Failure classes *)

(** One iteration of the attempt loop, by the outcome of the call. *)
Lemma _send_chunk_loop_step cfg sink chunk attempt rest b p :
  _send_chunk_loop cfg sink (attempt :: rest) b chunk p
  = let p1 := set_put_calls (put_calls p ++ [chunk]) p in
    let again :=
      (sleep_ms b ;;
       _send_chunk_loop cfg sink rest (next_backoff cfg b) chunk) p1 in
    match classify (sink (length (put_calls p))) with
    | Success => (Return tt, chunk_delivered chunk p)
    | Retryable =>
        if retries cfg <=? attempt then (Return tt, chunk_failed chunk p)
        else again
    | Fatal => (Return tt, chunk_failed chunk p)
    end.
Proof.
  cbn [_send_chunk_loop]. unfold bind at 1, put_log_raw. cbv zeta.
  destruct (sink (length (put_calls p))) as [|code status|];
    cbn [classify]; [reflexivity| |].
  - destruct (retryable code status); cbn [negb orb]; [|reflexivity].
    destruct (retries cfg <=? attempt); reflexivity.
  - destruct (retries cfg <=? attempt); reflexivity.
Qed.

Lemma _send_chunk_loop_class cfg sink1 sink2 chunk :
  (forall n, classify (sink1 n) = classify (sink2 n)) ->
  forall attempts b p,
    _send_chunk_loop cfg sink1 attempts b chunk p
    = _send_chunk_loop cfg sink2 attempts b chunk p.
Proof.
  intros Hclass. induction attempts as [|attempt rest IH]; intros b p;
    [reflexivity|].
  rewrite !_send_chunk_loop_step. cbv zeta. rewrite Hclass.
  destruct (classify (sink2 (length (put_calls p)))); try reflexivity.
  destruct (retries cfg <=? attempt); [reflexivity|].
  unfold bind.
  destruct (sleep_ms b (set_put_calls (put_calls p ++ [chunk]) p))
    as [[[]| |] q]; auto.
Qed.

(** The loop only adds to the two histories, and an attempt that is made
    hands the chunk to the sink. *)
Lemma _send_chunk_loop_extends cfg sink chunk :
  forall attempts b p,
    let q := snd (_send_chunk_loop cfg sink attempts b chunk p) in
    exists calls sleeps,
      put_calls q = put_calls p ++ calls
      /\ slept_ms q = slept_ms p ++ sleeps
      /\ (attempts <> [] -> exists calls', calls = chunk :: calls').
Proof.
  induction attempts as [|attempt rest IH]; intros b p.
  - exists [], []. cbn. rewrite !app_nil_r. repeat split. congruence.
  - rewrite _send_chunk_loop_step. cbv zeta.
    assert (Hstop : forall s,
      exists calls sleeps,
        put_calls (set_stats s (set_put_calls (put_calls p ++ [chunk]) p))
        = put_calls p ++ calls
        /\ slept_ms (set_stats s (set_put_calls (put_calls p ++ [chunk]) p))
           = slept_ms p ++ sleeps
        /\ (attempt :: rest <> [] -> exists calls', calls = chunk :: calls')).
    { intros s. exists [chunk], []. cbn. rewrite app_nil_r. repeat split.
      intros _. now exists []. }
    destruct (classify (sink (length (put_calls p)))).
    + exists [chunk], []. cbn. rewrite app_nil_r. repeat split.
      intros _. now exists [].
    + destruct (retries cfg <=? attempt); [apply Hstop|].
      unfold bind, sleep_ms. destruct (b <? 0).
      * exists [chunk], []. cbn. rewrite app_nil_r. repeat split.
        intros _. now exists [].
      * match goal with
        | |- context [_send_chunk_loop cfg sink rest ?b' chunk ?x] =>
            set (p2 := x);
            destruct (IH b' p2) as (calls & sleeps & Hp & Hs & _)
        end.
        cbn zeta in Hp, Hs.
        exists (chunk :: calls), (b :: sleeps). cbn [snd].
        rewrite Hp, Hs. unfold p2.
        cbn [put_calls slept_ms set_monotonic set_slept_ms set_put_calls].
        rewrite <- !app_assoc. repeat split.
        intros _. now exists calls.
    + apply Hstop.
Qed.

(** C1, as amended: [_send_chunk] has two failure policies, not one.  A
    non-sink exception is retried like a retryable sink error, and the two
    are interchangeable at every attempt: while attempts remain, the loop
    sleeps the current backoff and hands the chunk to the sink once more;
    at the last attempt it stops and the chunk is counted as failed.  A sink
    error that is not retryable (its code is none of the named ones and its
    status is absent or below 500) is not retried, at whichever attempt it
    comes: after N retried failures and their N sleeps, delivery stops at
    that attempt, without a further sleep or call, and the chunk is counted
    as failed.  The backoffs and the retry count are non-negative. *)
Theorem non_retryable_sink_error_fails_fast :
  forall cfg sink chunk p N,
    0 <= base_retry_backoff_ms cfg ->
    0 <= max_retry_backoff_ms cfg ->
    Z.of_nat N <= retries cfg ->
    (forall k, (k < N)%nat ->
               retried (sink (length (put_calls p) + k)%nat) = true) ->
    let run := _send_chunk cfg sink chunk p in
    let failure := sink (length (put_calls p) + N)%nat in
    let sleeps := backoffs cfg (base_retry_backoff_ms cfg) in
    (retried PutException = true
     /\ forall code status,
          retried (PutLogException code status) = retryable code status)
    /\ (forall sink',
          (forall n, classify (sink' n) = classify (sink n)) ->
          _send_chunk cfg sink' chunk p = run)
    /\ (retried failure = true -> Z.of_nat N < retries cfg ->
        exists calls more,
          put_calls (snd run)
          = put_calls p ++ repeat chunk (S N) ++ chunk :: calls
          /\ slept_ms (snd run) = slept_ms p ++ sleeps (S N) ++ more)
    /\ (retried failure = true -> Z.of_nat N = retries cfg ->
        fst run = Return tt
        /\ put_calls (snd run) = put_calls p ++ repeat chunk (S N)
        /\ slept_ms (snd run) = slept_ms p ++ sleeps N
        /\ send_fail (stats (snd run)) = send_fail (stats p) + 1)
    /\ (forall code status,
          failure = PutLogException code status ->
          retryable code status = false ->
          fst run = Return tt
          /\ put_calls (snd run) = put_calls p ++ repeat chunk (S N)
          /\ slept_ms (snd run) = slept_ms p ++ sleeps N
          /\ send_fail (stats (snd run)) = send_fail (stats p) + 1
          /\ send_success (stats (snd run)) = send_success (stats p)
          /\ delivered (snd run) = delivered p).
Proof.
  intros cfg sink chunk p N Hb Hmax HN Hfail run failure sleeps.
  split; [split; reflexivity|]. split; [|split; [|split]].
  - intros sink' Hclass. unfold run, _send_chunk.
    destruct (range 0 (retries cfg + 1) 1); [|reflexivity].
    now apply _send_chunk_loop_class.
  - intros Hagain Hleft.
    assert (Hfail' : forall k, (k < S N)%nat ->
              retried (sink (length (put_calls p) + k)%nat) = true).
    { intros k Hk. destruct (Nat.eq_dec k N) as [->|]; [exact Hagain|].
      apply Hfail. lia. }
    destruct (_send_chunk_after_retries cfg sink chunk p (S N) Hb Hmax
                Hfail' ltac:(lia))
      as (q & rest & b & E & Hsl & Hpc & _).
    destruct (_send_chunk_loop_extends cfg sink chunk
                (Z.of_nat (S N) :: rest) b q)
      as (calls & more & Hp & Hs & Hone).
    cbn zeta in Hp, Hs. destruct Hone as (calls' & ->); [discriminate|].
    exists calls', more. unfold run, sleeps. rewrite E, Hp, Hs, Hpc, Hsl.
    now rewrite <- !app_assoc.
  - intros Hagain Hlast.
    destruct (_send_chunk_after_retries cfg sink chunk p N Hb Hmax Hfail HN)
      as (q & rest & b & E & Hsl & Hpc & Hlen & Hst & Hd).
    rewrite _send_chunk_loop_exhausted in E;
      [|rewrite Hlen; exact Hagain|lia].
    unfold run, stats. rewrite E. cbn. rewrite Hsl, Hpc, Hst.
    rewrite <- app_assoc, <- repeat_cons. repeat split.
  - intros code status Hsink Hfatal.
    destruct (_send_chunk_after_retries cfg sink chunk p N Hb Hmax Hfail HN)
      as (q & rest & b & E & Hsl & Hpc & Hlen & Hst & Hd).
    rewrite _send_chunk_loop_fatal in E.
    + unfold run, stats. rewrite E. cbn. rewrite Hsl, Hpc, Hst, Hd.
      rewrite <- app_assoc, <- repeat_cons. repeat split.
    + rewrite Hlen. fold failure. rewrite Hsink. cbn [classify].
      now rewrite Hfatal.
Qed.

Lemma non_retryable_sink_error_fails_fast_witness :
  let run := _send_chunk default_config sink_raises_then_unauthorized
               [bare_entry 1] (AsyncProducer_init 0 0) in
  fst run = Return tt
  /\ put_calls (snd run) = repeat [bare_entry 1] 4
  /\ slept_ms (snd run) = [100; 200; 400]
  /\ send_fail (stats (snd run)) = 1.
Proof.
  intros run.
  destruct (proj2 (proj2 (proj2 (proj2
              (non_retryable_sink_error_fails_fast default_config
                 sink_raises_then_unauthorized [bare_entry 1]
                 (AsyncProducer_init 0 0) 3%nat
                 ltac:(cbn; lia) ltac:(cbn; lia) ltac:(cbn; lia)
                 ltac:(intros [|[|[|k]]] Hk; try reflexivity; lia)))))
              (Some "Unauthorized"%string) (Some 403) eq_refl eq_refl)
    as (A & B & C & D & _).
  split; [exact A|split; [exact B|split; [exact C|exact D]]].
Defined.

(** C1, as stated, fails: with the default 10 retries, a sink error that is
    not retryable ends the delivery after one attempt and no sleep, while a
    retryable one is attempted 11 times with 10 sleeps. *)
Lemma uniform_retry_counterexample :
  let run sink := snd (_send_chunk default_config sink [bare_entry 1]
                         (AsyncProducer_init 0 0)) in
  retryable (Some "Unauthorized"%string) (Some 403) = false
  /\ length (put_calls (run sink_always_unauthorized)) = 1%nat
  /\ slept_ms (run sink_always_unauthorized) = []
  /\ length (put_calls (run sink_always_timeout)) = 11%nat
  /\ length (slept_ms (run sink_always_timeout)) = 10%nat
  /\ run sink_always_unauthorized <> run sink_always_timeout.
Proof.
  cbv zeta. repeat split; try reflexivity.
  intros H. apply (f_equal slept_ms) in H. vm_compute in H. discriminate.
Qed.

(** ** Accounting over a run that ends with close *)










Section AcceptingSink.

Variable cfg : CLSConfig.
Variable sink : nat -> put_result.
Hypothesis chunk_size_positive : 1 <= max_batch_count cfg.
Hypothesis retries_nonneg : 0 <= retries cfg.
Hypothesis sink_accepts : forall n, sink n = PutOk.










End AcceptingSink.







(** * Further properties of producer.py *)

(** ** A closed producer *)

Lemma flush_empty cfg sink p :
  _buffer p = [] -> flush cfg sink p = (Return tt, p).
Proof.
  intros Hb. unfold flush, bind, _drain_buffer. now rewrite Hb.
Qed.

Lemma run_call_inert cfg sink c p :
  _closed p = true -> _buffer p = [] ->
  in_flight p = [] \/ c <> FlushThreadSends ->
  run_call cfg sink c p = p.
Proof.
  intros Hc Hb Hf. destruct c as [fs ts ws| |t fp| | |]; cbn [run_call].
  - now rewrite send_closed.
  - now rewrite flush_empty.
  - now rewrite close_closed.
  - unfold _flush_loop_pass. now rewrite flush_empty.
  - destruct (_flush_loop_drain_cases p) as [E|(_ & Hne & _)];
      [exact E|contradiction].
  - destruct Hf as [Hf|Hf]; [|contradiction].
    unfold _flush_loop_send. now rewrite Hf.
Qed.

(** X1: once a running producer has been closed its buffer is empty and
    every later [send] returns [False].  Unless the flush thread still holds
    a delivery that [close] gave up waiting for, the producer is inert:
    every later call (send, flush, close, a step of the flush thread) leaves
    its state exactly as [close] left it.  If the thread does hold one, the
    end of that delivery is the only thing that still changes the state. *)
Theorem closed_producer_is_inert :
  forall cfg sink timeout_ms final_pass p cs,
    _closed p = false ->
    let q := snd (close cfg sink timeout_ms final_pass p) in
    _buffer q = []
    /\ (in_flight q = [] \/ Forall (fun c => c <> FlushThreadSends) cs ->
        run_calls cfg sink cs q = q)
    /\ (forall fs ts ws, send cfg fs ts ws q = (Return false, q)).
Proof.
  intros cfg sink t fp p cs Hopen q.
  assert (Hc : _closed q = true) by apply close_sets_closed.
  assert (Hb : _buffer q = []).
  { unfold q. rewrite close_running by assumption.
    apply (flush_queue cfg sink (closing cfg sink t fp p)). }
  split; [exact Hb|]. split.
  - intros Hf. induction cs as [|c cs IH]; [reflexivity|].
    cbn [run_calls fold_left]. rewrite run_call_inert; try assumption.
    + apply IH. destruct Hf as [Hf|Hf]; [now left|right; now inversion Hf].
    + destruct Hf as [Hf|Hf]; [now left|right; now inversion Hf].
  - intros fs ts ws. now apply send_closed.
Qed.

Lemma closed_producer_is_inert_witness :
  let sink := fun _ : nat => PutOk in
  let q := snd (close default_config sink 60000 true
                  (snd (send default_config fields_400 None []
                          (AsyncProducer_init 0 0)))) in
  run_calls default_config sink
    [CallSend fields_400 None []; CallFlush; FlushThreadDrains;
     FlushThreadSends; FlushThreadPass; CallClose 10 false] q = q.
Proof.
  intros sink q.
  apply (proj1 (proj2
           (closed_producer_is_inert default_config sink 60000
              true (snd (send default_config fields_400 None []
                           (AsyncProducer_init 0 0)))
              [CallSend fields_400 None []; CallFlush; FlushThreadDrains;
               FlushThreadSends; FlushThreadPass; CallClose 10 false]
              eq_refl))).
  left. reflexivity.
Defined.

(** X2: a flush leaves nothing to flush: whatever the sink did during a
    first [flush], and even if that flush raised, a second [flush] right
    after it returns without calling the sink and changes nothing. *)
Theorem flush_twice_is_flush_once :
  forall cfg sink p,
    let p1 := snd (flush cfg sink p) in
    flush cfg sink p1 = (Return tt, p1)
    /\ put_calls (snd (flush cfg sink p1)) = put_calls p1.
Proof.
  intros cfg sink p p1.
  assert (E : flush cfg sink p1 = (Return tt, p1)).
  { apply flush_empty. apply (flush_queue cfg sink p). }
  rewrite E. split; reflexivity.
Qed.

(** ** Waking the flush thread *)


(** ** The exit hook *)

Lemma _send_chunk_loop_not_blocked cfg sink chunk :
  forall attempts b p,
    fst (_send_chunk_loop cfg sink attempts b chunk p) <> Blocked.
Proof.
  induction attempts as [|attempt rest IH]; intros b p; [discriminate|].
  rewrite _send_chunk_loop_step. cbv zeta.
  destruct (classify (sink (length (put_calls p)))); try discriminate.
  destruct (retries cfg <=? attempt); [discriminate|].
  unfold bind, sleep_ms. destruct (b <? 0); [discriminate|]. apply IH.
Qed.

Lemma for_each_not_blocked {A : Type} (body : A -> M unit) (xs : list A) :
  (forall x p, fst (body x p) <> Blocked) ->
  forall p, fst (for_each xs body p) <> Blocked.
Proof.
  intros Hbody. induction xs as [|x xs IH]; intros p; [discriminate|].
  cbn [for_each]. unfold bind. pose proof (Hbody x p) as Hx.
  destruct (body x p) as [[[]| |] q]; cbn [fst] in *; auto; discriminate.
Qed.

Lemma flush_not_blocked cfg sink p : fst (flush cfg sink p) <> Blocked.
Proof.
  unfold flush, bind, _drain_buffer.
  destruct (_buffer p) as [|e es]; [discriminate|].
  unfold _send_batch.
  destruct (range 0 (len (e :: es)) (max_batch_count cfg)); [|discriminate].
  apply for_each_not_blocked. intros i q. unfold _send_chunk.
  destruct (range 0 (retries cfg + 1) 1); [|discriminate].
  apply _send_chunk_loop_not_blocked.
Qed.

(** X4: the exit hook never lets an exception out and leaves the producer
    closed: on an open producer it runs [close] and swallows what [close]
    raises; on a closed one it does nothing. *)
Theorem atexit_flush_never_raises :
  forall cfg sink final_pass p,
    fst (_atexit_flush cfg sink final_pass p) = Return tt
    /\ _closed (snd (_atexit_flush cfg sink final_pass p)) = true
    /\ (_closed p = true -> _atexit_flush cfg sink final_pass p
                            = (Return tt, p)).
Proof.
  intros cfg sink fp p. unfold _atexit_flush.
  destruct (_closed p) eqn:Hc; [repeat split; exact Hc|].
  pose proof (close_sets_closed cfg sink 5000 fp p) as Hclosed.
  assert (Hnb : fst (close cfg sink 5000 fp p) <> Blocked).
  { rewrite close_running by assumption. apply flush_not_blocked. }
  destruct (close cfg sink 5000 fp p) as [[[]|e|] q]; cbn [fst snd] in *;
    try (repeat split; try assumption; discriminate).
  contradiction.
Qed.

(** ** The outcome of a chunk *)

Lemma retried_classify r : retried r = true <-> classify r = Retryable.
Proof.
  destruct r as [|code status|]; cbn [retried classify].
  - split; discriminate.
  - destruct (retryable code status); split; auto; discriminate.
  - split; auto.
Qed.

Lemma _send_chunk_loop_outcome cfg sink chunk :
  0 <= max_retry_backoff_ms cfg ->
  forall attempts b p,
    0 <= b ->
    exists k q,
      _send_chunk_loop cfg sink attempts b chunk p = (Return tt, q)
      /\ (k <= length attempts)%nat
      /\ put_calls q = put_calls p ++ repeat chunk k
      /\ same_queue p q
      /\ ((1 <= k)%nat
          /\ _stats q = incr_logs (len chunk) (incr_success (_stats p))
          /\ delivered q = delivered p ++ [chunk]
          \/ _stats q = incr_fail (_stats p)
             /\ delivered q = delivered p).
Proof.
  intros Hmax. induction attempts as [|attempt rest IH]; intros b p Hb.
  - exists 0%nat, (set_stats (incr_fail (_stats p)) p). cbn.
    rewrite app_nil_r. repeat split; auto.
  - rewrite _send_chunk_loop_step. cbv zeta.
    assert (Hfail : exists k q,
      (Return tt, chunk_failed chunk p) = (Return (A:=unit) tt, q)
      /\ (k <= length (attempt :: rest))%nat
      /\ put_calls q = put_calls p ++ repeat chunk k
      /\ same_queue p q
      /\ ((1 <= k)%nat
          /\ _stats q = incr_logs (len chunk) (incr_success (_stats p))
          /\ delivered q = delivered p ++ [chunk]
          \/ _stats q = incr_fail (_stats p)
             /\ delivered q = delivered p)).
    { exists 1%nat, (chunk_failed chunk p). cbn [length].
      repeat split; auto; lia. }
    destruct (classify (sink (length (put_calls p)))); [|clear Hfail|exact Hfail].
    + exists 1%nat, (chunk_delivered chunk p). cbn [length].
      repeat split; auto; lia.
    + destruct (retries cfg <=? attempt).
      * exists 1%nat, (chunk_failed chunk p). cbn [length].
        repeat split; auto; lia.
      * unfold bind, sleep_ms. destruct (Z.ltb_spec b 0); [lia|].
        match goal with
        | |- context [_send_chunk_loop cfg sink rest ?b' chunk ?p2] =>
            destruct (IH b' p2) as (k & q & E & Hk & Hp & Hq & Hout);
              [now apply next_backoff_nonneg|]
        end.
        exists (S k), q. rewrite E. cbn [length repeat].
        cbn [put_calls set_monotonic set_slept_ms set_put_calls _stats
             delivered] in Hp, Hout.
        rewrite <- app_assoc in Hp. cbn [app] in Hp.
        repeat split; try assumption; try lia; try apply Hq.
        destruct Hout as [(H1 & H2 & H3)|(H1 & H2)]; [left|right];
          repeat split; auto; lia.
Qed.

(** X5: [_send_chunk] builds the payload first, outside any [try]: when
    a value is refused ([time] outside int64, a string that cannot be
    encoded) [ValueError] leaves the method before any attempt, and nothing
    is sent or counted.  When the payload builds and the backoffs are
    non-negative, the method returns without raising, whether the calls of
    the sink return, raise [LogException] or raise another [Exception], and
    the chunk ends in exactly one of two outcomes.  The same chunk was handed
    to the sink k times in a row, k at most [retries + 1]; either it was
    accepted (k at least 1): one more success, its entries added to
    [log_count], delivered once; or it failed: one more failure, nothing
    delivered, nothing counted as logs.  The buffer, its byte count and the
    closed flag are not touched. *)
Theorem send_chunk_ends_in_one_outcome :
  forall source field_map cfg sink chunk p,
    0 <= base_retry_backoff_ms cfg ->
    0 <= max_retry_backoff_ms cfg ->
    let run := _send_chunk_from_payload source field_map cfg sink chunk p in
    (payload_builds source field_map chunk = false ->
     run = (Raised ValueError, p))
    /\ (payload_builds source field_map chunk = true ->
        let q := snd run in
        fst run = Return tt
        /\ same_queue p q
        /\ exists k,
             (k <= Z.to_nat (retries cfg + 1))%nat
             /\ put_calls q = put_calls p ++ repeat chunk k
             /\ ((1 <= k)%nat
                 /\ _stats q = incr_logs (len chunk) (incr_success (_stats p))
                 /\ delivered q = delivered p ++ [chunk]
                 \/ _stats q = incr_fail (_stats p)
                    /\ delivered q = delivered p)).
Proof.
  intros source field_map cfg sink chunk p Hb Hmax run. subst run.
  unfold _send_chunk_from_payload.
  destruct (payload_builds source field_map chunk);
    [|split; [reflexivity|discriminate]].
  split; [discriminate|]. intros _.
  unfold _send_chunk. rewrite range_upto.
  destruct (_send_chunk_loop_outcome cfg sink chunk Hmax
              (map Z.of_nat (seq 0 (Z.to_nat (retries cfg + 1))))
              (base_retry_backoff_ms cfg) p Hb)
    as (k & q & E & Hk & Hp & Hq & Hout).
  rewrite E. cbn [fst snd]. rewrite length_map, length_seq in Hk.
  split; [reflexivity|]. split; [exact Hq|]. exists k. auto.
Qed.

Lemma send_chunk_ends_in_one_outcome_witness :
  fst (_send_chunk_from_payload (lit "scf") None default_config
         sink_always_raises [bare_entry 1] (AsyncProducer_init 0 0))
  = Return tt
  /\ _send_chunk_from_payload (lit "scf") None default_config
       sink_always_raises [bare_entry 1; bare_entry (2 ^ 63)]
       (AsyncProducer_init 0 0)
     = (Raised ValueError, AsyncProducer_init 0 0).
Proof.
  split.
  - apply (proj2 (send_chunk_ends_in_one_outcome (lit "scf") None
                    default_config sink_always_raises [bare_entry 1]
                    (AsyncProducer_init 0 0)
                    ltac:(cbn; lia) ltac:(cbn; lia))).
    reflexivity.
  - apply (proj1 (send_chunk_ends_in_one_outcome (lit "scf") None
                    default_config sink_always_raises
                    [bare_entry 1; bare_entry (2 ^ 63)]
                    (AsyncProducer_init 0 0)
                    ltac:(cbn; lia) ltac:(cbn; lia))).
    reflexivity.
Defined.

(** ** Degenerate configurations *)

Lemma range_negative_step n s :
  0 < n -> s < 0 -> range 0 n s = Ok [].
Proof.
  intros Hn Hs. unfold range, range_count.
  destruct (Z.eqb_spec s 0); [lia|].
  destruct (Z.ltb_spec 0 s); [lia|].
  replace (Z.to_nat ((0 - n + - s - 1) / - s)) with 0%nat; [reflexivity|].
  assert ((0 - n + - s - 1) / - s < 1); [|lia].
  apply Z.div_lt_upper_bound; lia.
Qed.

(** X6: a chunk size that is not positive loses the buffered entries.  On
    a non-empty buffer [flush] first empties the buffer; with
    [max_batch_count = 0] the chunking then raises [ValueError] out of
    [flush], and with a negative [max_batch_count] it returns normally; in
    both cases the sink is never called and no counter moves. *)
Theorem flush_with_nonpositive_chunk_size_loses_entries :
  forall cfg sink p,
    max_batch_count cfg <= 0 ->
    _buffer p <> [] ->
    flush cfg sink p
    = (if max_batch_count cfg =? 0 then Raised ValueError else Return tt,
       drained p)
    /\ put_calls (snd (flush cfg sink p)) = put_calls p
    /\ stats (snd (flush cfg sink p)) = stats p.
Proof.
  intros cfg sink p Hs Hb.
  assert (E : flush cfg sink p
              = (if max_batch_count cfg =? 0
                 then Raised ValueError else Return tt, drained p)).
  { unfold flush, bind, _drain_buffer.
    destruct (_buffer p) as [|e es] eqn:Eb; [contradiction|].
    unfold _send_batch. destruct (Z.eqb_spec (max_batch_count cfg) 0) as [H0|H0].
    - unfold range. rewrite H0. reflexivity.
    - rewrite range_negative_step; [reflexivity| |lia].
      unfold len. cbn [length]. lia. }
  rewrite E. repeat split.
Qed.

Lemma flush_with_nonpositive_chunk_size_loses_entries_witness :
  let cfg := {| total_size_bytes := 1000; max_send_workers := 50;
                max_block_sec := 0; max_batch_size := 5242880;
                max_batch_count := -1; linger_ms := 2000; retries := 10;
                base_retry_backoff_ms := 100;
                max_retry_backoff_ms := 50000 |} in
  let p := set_buffer [bare_entry 1] (AsyncProducer_init 0 0) in
  flush cfg (fun _ => PutOk) p = (Return tt, drained p).
Proof.
  intros cfg p.
  apply (proj1 (flush_with_nonpositive_chunk_size_loses_entries cfg
                  (fun _ => PutOk) p ltac:(cbn; lia)
                  ltac:(discriminate))).
Defined.

(** X7: with a negative retry count [_send_chunk] makes no attempt at all:
    the sink is not called and the chunk is counted as failed. *)
Theorem negative_retries_send_nothing :
  forall cfg sink chunk p,
    retries cfg < 0 ->
    _send_chunk cfg sink chunk p
    = (Return tt, set_stats (incr_fail (_stats p)) p).
Proof.
  intros cfg sink chunk p Hr. unfold _send_chunk. rewrite range_upto.
  replace (Z.to_nat (retries cfg + 1)) with 0%nat by lia. reflexivity.
Qed.

Lemma negative_retries_send_nothing_witness :
  let cfg := {| total_size_bytes := 1000; max_send_workers := 50;
                max_block_sec := 0; max_batch_size := 5242880;
                max_batch_count := 4096; linger_ms := 2000; retries := -1;
                base_retry_backoff_ms := 100;
                max_retry_backoff_ms := 50000 |} in
  put_calls (snd (_send_chunk cfg (fun _ => PutOk) [bare_entry 1]
                    (AsyncProducer_init 0 0))) = [].
Proof.
  intros cfg.
  rewrite (negative_retries_send_nothing cfg (fun _ => PutOk)
             [bare_entry 1] (AsyncProducer_init 0 0) eq_refl).
  reflexivity.
Defined.

(** X8: with a negative base backoff the first retry raises.  When the
    first attempt fails in a way that calls for a retry and attempts
    remain, [time.sleep] raises [ValueError] out of [_send_chunk]: the
    chunk was sent once and is recorded neither as success nor as
    failure. *)
Theorem negative_backoff_raises_on_first_retry :
  forall cfg sink chunk p,
    base_retry_backoff_ms cfg < 0 ->
    1 <= retries cfg ->
    retried (sink (length (put_calls p))) = true ->
    _send_chunk cfg sink chunk p
    = (Raised ValueError, set_put_calls (put_calls p ++ [chunk]) p)
    /\ stats (snd (_send_chunk cfg sink chunk p)) = stats p.
Proof.
  intros cfg sink chunk p Hb Hr Hfail.
  assert (E : _send_chunk cfg sink chunk p
              = (Raised ValueError,
                 set_put_calls (put_calls p ++ [chunk]) p)).
  { unfold _send_chunk.
    destruct (first_attempt cfg ltac:(lia)) as (rest & ->).
    rewrite _send_chunk_loop_step. cbv zeta.
    apply retried_classify in Hfail. rewrite Hfail.
    destruct (Z.leb_spec (retries cfg) 0); [lia|].
    unfold bind, sleep_ms.
    destruct (Z.ltb_spec (base_retry_backoff_ms cfg) 0); [reflexivity|lia]. }
  rewrite E. split; reflexivity.
Qed.

Lemma negative_backoff_raises_on_first_retry_witness :
  let cfg := {| total_size_bytes := 1000; max_send_workers := 50;
                max_block_sec := 0; max_batch_size := 5242880;
                max_batch_count := 4096; linger_ms := 2000; retries := 10;
                base_retry_backoff_ms := -100;
                max_retry_backoff_ms := 50000 |} in
  fst (_send_chunk cfg sink_always_timeout [bare_entry 1]
         (AsyncProducer_init 0 0)) = Raised ValueError.
Proof.
  intros cfg.
  rewrite (proj1 (negative_backoff_raises_on_first_retry cfg
                    sink_always_timeout [bare_entry 1]
                    (AsyncProducer_init 0 0) eq_refl ltac:(cbn; lia)
                    eq_refl)).
  reflexivity.
Defined.

(** ** Backoff beyond the cap *)

Lemma backoffs_tail_capped cfg :
  0 <= max_retry_backoff_ms cfg ->
  forall m b, 0 <= b ->
    Forall (fun x => 0 <= x <= max_retry_backoff_ms cfg)
      (backoffs cfg (next_backoff cfg b) m).
Proof.
  intros Hmax. induction m as [|m IH]; intros b Hb; cbn [backoffs];
    constructor.
  - unfold next_backoff. lia.
  - apply IH. now apply next_backoff_nonneg.
Qed.

(** X9: the cap is applied after the first sleep, not before it.  When
    every attempt fails in a way that calls for a retry, the sleeps are
    the base backoff itself, then each time the smaller of twice the
    previous sleep and the maximum backoff: every sleep but the first is
    within the maximum, and the first exceeds it whenever the base does. *)
Theorem first_backoff_is_uncapped :
  forall cfg sink chunk p,
    1 <= retries cfg ->
    0 <= base_retry_backoff_ms cfg ->
    0 <= max_retry_backoff_ms cfg ->
    (forall k, retried (sink (length (put_calls p) + k)%nat) = true) ->
    exists later,
      slept_ms (snd (_send_chunk cfg sink chunk p))
      = slept_ms p ++ base_retry_backoff_ms cfg :: later
      /\ length later = Z.to_nat (retries cfg - 1)
      /\ Forall (fun x => 0 <= x <= max_retry_backoff_ms cfg) later.
Proof.
  intros cfg sink chunk p Hr Hb Hmax Hfail.
  exists (backoffs cfg (next_backoff cfg (base_retry_backoff_ms cfg))
            (Z.to_nat (retries cfg - 1))).
  split; [|split].
  - unfold _send_chunk. rewrite range_upto.
    replace (Z.to_nat (retries cfg + 1))
      with (Z.to_nat (retries cfg) + 1)%nat by lia.
    destruct (_send_chunk_loop_retries cfg sink chunk Hmax
                (Z.to_nat (retries cfg)) 0 1
                (base_retry_backoff_ms cfg) p Hb
                ltac:(intros k _; apply Hfail) ltac:(lia))
      as (q & E & _ & Hsl & Hpc & Hst & Hd).
    rewrite E. cbn [seq map]. rewrite _send_chunk_loop_exhausted.
    + cbn [snd]. cbn. rewrite Hsl.
      replace (Z.to_nat (retries cfg))
        with (S (Z.to_nat (retries cfg - 1))) by lia.
      reflexivity.
    + rewrite Hpc, length_app, repeat_length. apply Hfail.
    + lia.
  - clear. generalize (next_backoff cfg (base_retry_backoff_ms cfg)).
    induction (Z.to_nat (retries cfg - 1)) as [|m IH]; intros b;
      cbn [backoffs length]; [reflexivity|]. now rewrite IH.
  - now apply backoffs_tail_capped.
Qed.

Lemma first_backoff_is_uncapped_witness :
  let cfg := {| total_size_bytes := 1000; max_send_workers := 50;
                max_block_sec := 0; max_batch_size := 5242880;
                max_batch_count := 4096; linger_ms := 2000; retries := 3;
                base_retry_backoff_ms := 700;
                max_retry_backoff_ms := 500 |} in
  exists later,
    slept_ms (snd (_send_chunk cfg sink_always_timeout [bare_entry 1]
                     (AsyncProducer_init 0 0)))
    = [] ++ 700 :: later
    /\ length later = 2%nat
    /\ Forall (fun x => 0 <= x <= 500) later.
Proof.
  intros cfg.
  apply (first_backoff_is_uncapped cfg sink_always_timeout [bare_entry 1]
           (AsyncProducer_init 0 0) ltac:(cbn; lia) ltac:(cbn; lia)
           ltac:(cbn; lia) (fun _ => eq_refl)).
Defined.

(** ** The counters only go up *)

Lemma stats_le_refl s : stats_le s s.
Proof. unfold stats_le. lia. Qed.

Lemma stats_le_trans s1 s2 s3 :
  stats_le s1 s2 -> stats_le s2 s3 -> stats_le s1 s3.
Proof. unfold stats_le. lia. Qed.

Lemma _send_chunk_loop_counts_up cfg sink chunk :
  forall attempts b p,
    stats_le (_stats p)
      (_stats (snd (_send_chunk_loop cfg sink attempts b chunk p))).
Proof.
  induction attempts as [|attempt rest IH]; intros b p.
  - cbn. unfold stats_le. cbn. lia.
  - rewrite _send_chunk_loop_step. cbv zeta.
    assert (Hfail : stats_le (_stats p) (_stats (chunk_failed chunk p))).
    { unfold stats_le. cbn. lia. }
    destruct (classify (sink (length (put_calls p)))); [|clear Hfail|exact Hfail].
    + unfold stats_le, chunk_delivered, incr_logs, incr_success, len.
      cbn [_stats set_stats send_success send_fail log_count drop_count
           snd].
      lia.
    + destruct (retries cfg <=? attempt).
      * unfold stats_le. cbn. lia.
      * unfold bind, sleep_ms. destruct (b <? 0); [apply stats_le_refl|].
        match goal with
        | |- context [_send_chunk_loop cfg sink rest ?b' chunk ?p2] =>
            exact (IH b' p2)
        end.
Qed.

Lemma for_each_counts_up {A : Type} (body : A -> M unit) (xs : list A) :
  (forall x p, stats_le (_stats p) (_stats (snd (body x p)))) ->
  forall p, stats_le (_stats p) (_stats (snd (for_each xs body p))).
Proof.
  intros Hbody. induction xs as [|x xs IH]; intros p;
    [apply stats_le_refl|].
  cbn [for_each]. unfold bind. pose proof (Hbody x p) as Hx.
  destruct (body x p) as [[[]| |] q]; cbn [snd] in *; auto.
  eapply stats_le_trans; [exact Hx|apply IH].
Qed.

Lemma _send_batch_counts_up cfg sink entries p :
  stats_le (_stats p) (_stats (snd (_send_batch cfg sink entries p))).
Proof.
  unfold _send_batch.
  destruct (range 0 (len entries) (max_batch_count cfg));
    [|apply stats_le_refl].
  apply for_each_counts_up. intros i q. unfold _send_chunk.
  destruct (range 0 (retries cfg + 1) 1); [|apply stats_le_refl].
  apply _send_chunk_loop_counts_up.
Qed.

Lemma flush_counts_up cfg sink p :
  stats_le (_stats p) (_stats (snd (flush cfg sink p))).
Proof.
  unfold flush, bind, _drain_buffer.
  destruct (_buffer p) as [|e es]; [apply stats_le_refl|].
  change (_stats p) with (_stats (set_buffer_size 0 (set_buffer [] p))).
  apply _send_batch_counts_up.
Qed.

Lemma _flush_loop_drain_stats p : _stats (_flush_loop_drain p) = _stats p.
Proof.
  destruct (_flush_loop_drain_cases p) as [E|(_ & _ & E)]; now rewrite E.
Qed.

Lemma _flush_loop_send_counts_up cfg sink p :
  stats_le (_stats p) (_stats (_flush_loop_send cfg sink p)).
Proof.
  destruct (_flush_loop_send_cases cfg sink p) as [E|(_ & E)]; rewrite E.
  - apply stats_le_refl.
  - apply (_send_batch_counts_up cfg sink (in_flight p) p).
Qed.

Lemma drop_entry_counts_up p : stats_le (_stats p) (_stats (drop_entry p)).
Proof. unfold stats_le. cbn. lia. Qed.

Lemma send_wait_counts_up cfg entry deadline :
  forall fuel ws p,
    wakeups_count_up ws ->
    stats_le (_stats p)
      (_stats (snd (send_wait cfg fuel entry deadline ws p))).
Proof.
  induction fuel as [|fuel IH]; intros ws p Hws; cbn [send_wait];
    destruct (overflows cfg entry p); try apply stats_le_refl;
    destruct (deadline - monotonic_us p <=? 0);
    try apply drop_entry_counts_up; try apply stats_le_refl.
  destruct ws as [|w ws]; cbn [wait_not_full].
  - exact (IH []
             (set_monotonic (monotonic_us p + (deadline - monotonic_us p)) p)
             Hws).
  - inversion Hws as [|? ? Hw Hws']; subst.
    eapply stats_le_trans; [apply Hw|]. now apply IH.
Qed.

Lemma send_counts_up cfg fs ts ws p :
  wakeups_count_up ws ->
  stats_le (_stats p) (_stats (snd (send cfg fs ts ws p))).
Proof.
  intros Hws. unfold send. unfold bind at 1. unfold get.
  destruct (_closed p); [apply stats_le_refl|].
  fold (entry_of fs ts p). unfold bind at 1.
  assert (Ha : stats_le (_stats p)
                 (_stats (snd (send_admission cfg (entry_of fs ts p) ws p)))).
  { unfold send_admission. destruct (overflows cfg _ p);
      [|apply stats_le_refl].
    destruct (max_block_sec cfg <=? 0); [apply drop_entry_counts_up|].
    now apply send_wait_counts_up. }
  destruct (send_admission cfg (entry_of fs ts p) ws p) as [[[|]| |] q];
    cbn [snd] in *; auto.
  destruct (send_append_spec cfg (entry_of fs ts p) q)
    as (q' & E & _ & _ & _ & Hst & _).
  unfold bind. rewrite E. cbn [snd ret]. now rewrite Hst.
Qed.

Lemma close_counts_up cfg sink t fp p :
  stats_le (_stats p) (_stats (snd (close cfg sink t fp p))).
Proof.
  destruct (_closed p) eqn:Hc.
  - rewrite close_closed by assumption. apply stats_le_refl.
  - rewrite close_running by assumption.
    eapply stats_le_trans; [|apply flush_counts_up].
    apply (closing_keeps cfg sink
             (fun q => stats_le (_stats p) (_stats q))).
    + apply stats_le_refl.
    + intros q Hq. now rewrite _flush_loop_drain_stats.
    + intros q Hq.
      eapply stats_le_trans; [exact Hq|apply _flush_loop_send_counts_up].
Qed.

(** X10: the four counters never go down.  After any run of sends,
    flushes, closes and passes of the flush thread, with any sink and any
    configuration, each of [send_success], [send_fail], [log_count] and
    [drop_count] is at least what it was before (other threads only adding
    to them while a sender waits). *)
Theorem stats_counters_never_decrease :
  forall cfg sink cs p,
    calls_count_up cs ->
    stats_le (stats p) (stats (run_calls cfg sink cs p)).
Proof.
  intros cfg sink cs. unfold stats.
  induction cs as [|c cs IH]; intros p Hcs; [apply stats_le_refl|].
  inversion Hcs as [|? ? Hc Hcs']; subst. cbn [run_calls fold_left].
  eapply stats_le_trans; [|apply IH; exact Hcs'].
  destruct c as [fs ts ws| |t fp| | |]; cbn [run_call].
  - now apply send_counts_up.
  - apply flush_counts_up.
  - apply close_counts_up.
  - apply flush_counts_up.
  - rewrite _flush_loop_drain_stats. apply stats_le_refl.
  - apply _flush_loop_send_counts_up.
Qed.

Lemma stats_counters_never_decrease_witness :
  stats_le (stats (AsyncProducer_init 0 0))
    (stats (run_calls config_capacity_1000 sink_always_unauthorized
              [CallSend fields_400 None []; CallSend fields_400 None [];
               CallSend fields_400 None []; FlushThreadPass;
               CallClose 60000 true]
              (AsyncProducer_init 0 0))).
Proof.
  apply (stats_counters_never_decrease config_capacity_1000
           sink_always_unauthorized).
  repeat constructor.
Defined.

Lemma atexit_flush_never_raises_witness :
  let p := set_closed true (AsyncProducer_init 0 0) in
  _atexit_flush default_config (fun _ => PutOk) true p = (Return tt, p).
Proof.
  intros p.
  apply (proj2 (proj2 (atexit_flush_never_raises default_config
                         (fun _ => PutOk) true p))).
  reflexivity.
Defined.

(** * Dictionaries *)

Lemma str_eqb_eq a b : str_eqb a b = true <-> a = b.
Proof.
  revert b. induction a as [|x a IH]; intros [|y b]; cbn [str_eqb];
    try (split; (discriminate || reflexivity)).
  rewrite andb_true_iff, N.eqb_eq, IH. split.
  - intros [-> ->]. reflexivity.
  - intros H. injection H as -> ->. auto.
Qed.

Lemma str_eqb_refl a : str_eqb a a = true.
Proof. now apply str_eqb_eq. Qed.

Lemma str_eqb_neq a b : str_eqb a b = false <-> a <> b.
Proof.
  rewrite <- str_eqb_eq. destruct (str_eqb a b); split; congruence.
Qed.

Lemma dict_get_set_same {V : Type} (d : dict V) k v :
  dict_get (dict_set k v d) k = Some v.
Proof.
  induction d as [|[k' v'] d IH]; cbn [dict_set dict_get].
  - now rewrite str_eqb_refl.
  - destruct (str_eqb k' k) eqn:E; cbn [dict_get]; rewrite E; auto.
Qed.

Lemma dict_get_set_other {V : Type} (d : dict V) k v k0 :
  k <> k0 -> dict_get (dict_set k v d) k0 = dict_get d k0.
Proof.
  intros Hne. induction d as [|[k' v'] d IH]; cbn [dict_set dict_get].
  - apply str_eqb_neq in Hne. now rewrite Hne.
  - destruct (str_eqb k' k) eqn:E; cbn [dict_get].
    + apply str_eqb_eq in E. subst k'.
      apply str_eqb_neq in Hne. now rewrite Hne.
    + now rewrite IH.
Qed.

Lemma dict_set_fresh {V : Type} (d : dict V) k v :
  dict_has d k = false -> dict_set k v d = d ++ [(k, v)].
Proof.
  unfold dict_has. induction d as [|[k' v'] d IH]; cbn [dict_set dict_get app];
    [reflexivity|].
  destruct (str_eqb k' k); [discriminate|]. intros H. now rewrite IH.
Qed.

Lemma dict_has_in {V : Type} (d : dict V) k :
  dict_has d k = true <-> In k (dict_keys d).
Proof.
  unfold dict_has, dict_keys.
  induction d as [|[k' v'] d IH]; cbn [dict_get map In fst].
  - split; [discriminate|contradiction].
  - destruct (str_eqb k' k) eqn:E.
    + apply str_eqb_eq in E. split; auto.
    + apply str_eqb_neq in E. rewrite IH. split; [auto|].
      intros [H|H]; [contradiction|assumption].
Qed.

Lemma dict_keys_set {V : Type} (d : dict V) k v :
  dict_keys (dict_set k v d)
  = if dict_has d k then dict_keys d else dict_keys d ++ [k].
Proof.
  unfold dict_has, dict_keys.
  induction d as [|[k' v'] d IH]; cbn [dict_set dict_get map app fst];
    [reflexivity|].
  destruct (str_eqb k' k) eqn:E; cbn [map fst]; [reflexivity|].
  rewrite IH. now destruct (dict_get d k).
Qed.

(** Where a sequence of renamed assignments leaves a key. *)
Lemma rekey_lookup {V : Type} (g : str -> str) (items : dict V) :
  forall m k,
    dict_get
      (fold_left (fun mapped kv => dict_set (g (fst kv)) (snd kv) mapped)
         items m) k
    = match last_value g items k with
      | Some v => Some v
      | None => dict_get m k
      end.
Proof.
  unfold last_value.
  assert (G : forall (items : dict V) m acc k,
    dict_get
      (fold_left (fun mapped kv => dict_set (g (fst kv)) (snd kv) mapped)
         items m) k
    = match fold_left
              (fun acc kv =>
                 if str_eqb (g (fst kv)) k then Some (snd kv) else acc)
              items None with
      | Some v => Some v
      | None => dict_get m k
      end
    /\ fold_left
         (fun acc kv =>
            if str_eqb (g (fst kv)) k then Some (snd kv) else acc)
         items acc
       = match fold_left
                 (fun acc kv =>
                    if str_eqb (g (fst kv)) k then Some (snd kv) else acc)
                 items None with
         | Some v => Some v
         | None => acc
         end).
  { clear items. induction items as [|[k1 v1] items IH]; intros m acc k;
      cbn [fold_left fst snd]; [split; reflexivity|].
    destruct (IH (dict_set (g k1) v1 m)
                (if str_eqb (g k1) k then Some v1 else acc) k) as [IH1 IH2].
    destruct (IH m (if str_eqb (g k1) k then Some v1 else None) k)
      as [_ IH3].
    rewrite IH1, IH2, IH3.
    destruct (fold_left _ items None) as [v|]; [split; reflexivity|].
    destruct (str_eqb (g k1) k) eqn:E; split; try reflexivity.
    - apply str_eqb_eq in E. subst k. apply dict_get_set_same.
    - apply str_eqb_neq in E. now apply dict_get_set_other. }
  intros m k. apply (G items m None k).
Qed.

(** Renamed assignments whose targets are new and pairwise distinct just
    append. *)
Lemma rekey_fresh {V : Type} (g : str -> str) (items : dict V) :
  forall m,
    NoDup (dict_keys m ++ map (fun kv => g (fst kv)) items) ->
    fold_left (fun mapped kv => dict_set (g (fst kv)) (snd kv) mapped)
      items m
    = m ++ map (fun kv => (g (fst kv), snd kv)) items.
Proof.
  induction items as [|[k1 v1] items IH]; intros m Hnd;
    cbn [fold_left map fst snd].
  - now rewrite app_nil_r.
  - cbn [map fst] in Hnd.
    assert (Hfresh : dict_has m (g k1) = false).
    { destruct (dict_has m (g k1)) eqn:E; [|reflexivity].
      apply dict_has_in in E. apply NoDup_remove_2 in Hnd.
      exfalso. apply Hnd. apply in_or_app. now left. }
    rewrite dict_set_fresh by assumption. rewrite IH.
    + now rewrite <- app_assoc.
    + unfold dict_keys in *. rewrite map_app. cbn [map fst].
      rewrite <- app_assoc. cbn [app].
      apply NoDup_Add with (a := g k1) (l := map fst m ++ map (fun kv => g (fst kv)) items).
      * apply Add_app.
      * split.
        -- now apply NoDup_remove_1 in Hnd.
        -- now apply NoDup_remove_2 in Hnd.
Qed.

Lemma rekey_keys {V : Type} (g : str -> str) (items : dict V) :
  forall m k,
    In k (dict_keys
            (fold_left
               (fun mapped kv => dict_set (g (fst kv)) (snd kv) mapped)
               items m)) ->
    In k (dict_keys m) \/ exists kv, In kv items /\ k = g (fst kv).
Proof.
  induction items as [|[k1 v1] items IH]; intros m k Hin;
    cbn [fold_left fst snd] in Hin; [now left|].
  apply IH in Hin. destruct Hin as [Hin|(kv & Hkv & ->)].
  - rewrite dict_keys_set in Hin. destruct (dict_has m (g k1)); [now left|].
    apply in_app_or in Hin. destruct Hin as [Hin|[<-|[]]]; [now left|].
    right. exists (k1, v1). split; [now left|reflexivity].
  - right. exists kv. split; [now right|reflexivity].
Qed.

(** * producer.py: _Batch *)

Lemma batch_adds b0 es :
  let b := fold_left _Batch.add es b0 in
  _Batch.entries b = _Batch.entries b0 ++ es
  /\ _Batch.total_size b = _Batch.total_size b0 + sum_sizes es
  /\ _Batch.count b = _Batch.count b0 + len es.
Proof.
  revert b0. induction es as [|e es IH]; intros b0; cbn [fold_left].
  - rewrite app_nil_r. unfold len. cbn. repeat split; lia.
  - destruct (IH (_Batch.add b0 e)) as (He & Hs & Hc). cbn zeta in *.
    rewrite He, Hs, Hc. cbn [_Batch.add _Batch.entries _Batch.total_size
                              _Batch.count sum_sizes fold_right].
    fold (sum_sizes es). unfold len. cbn [length].
    rewrite <- app_assoc. repeat split; lia.
Qed.

(** X11: a batch keeps its totals in step with its entries.  After adding
    any entries to a new [_Batch], one by one, it holds exactly these
    entries in order, [total_size] is the sum of their sizes, [count] is
    their number, and [is_empty] answers true exactly when nothing was
    added. *)
Theorem batch_totals_follow_entries :
  forall es,
    let b := fold_left _Batch.add es _Batch.empty in
    _Batch.entries b = es
    /\ _Batch.total_size b = sum_sizes es
    /\ _Batch.count b = len es
    /\ (_Batch.is_empty b = true <-> es = []).
Proof.
  intros es b. destruct (batch_adds _Batch.empty es) as (He & Hs & Hc).
  cbn zeta in *. fold b in He, Hs, Hc. cbn in He, Hs, Hc.
  repeat split; try assumption.
  - unfold _Batch.is_empty. rewrite Hc. intros H. apply Z.eqb_eq in H.
    apply len_nil_iff. lia.
  - intros ->. reflexivity.
Qed.

(** * producer.py: the payload *)

Lemma payload_logs_build source fm entries :
  payload_logs (_build_log_group_list source fm entries)
  = map (build_log fm) entries.
Proof.
  unfold payload_logs, _build_log_group_list. cbn. apply app_nil_r.
Qed.

(** X12: chunking does not disturb the payload.  For a chunk size of at
    least one, the logs of the payloads built for the chunks of a batch,
    taken in order, are the logs of the payload of the whole batch: one log
    per entry in the drained order, carrying the entry's timestamp and its
    field values in their order, whatever the field map. *)
Theorem chunk_payloads_carry_the_batch_in_order :
  forall cfg source fm entries,
    1 <= max_batch_count cfg ->
    concat (map (fun chunk =>
                   payload_logs (_build_log_group_list source fm chunk))
              (batch_chunks cfg entries))
    = payload_logs (_build_log_group_list source fm entries)
    /\ map cls_pb2.time
         (payload_logs (_build_log_group_list source fm entries))
       = map timestamp_us entries
    /\ map (fun l => map snd (cls_pb2.contents l))
         (payload_logs (_build_log_group_list source fm entries))
       = map (fun e => map snd (fields e)) entries.
Proof.
  intros cfg source fm entries Hs.
  destruct (batch_chunks_cover cfg entries Hs) as [Hcat _].
  rewrite payload_logs_build. split; [|split].
  - rewrite (map_ext _ (map (build_log fm)))
      by (intros; apply payload_logs_build).
    rewrite <- concat_map. now rewrite Hcat.
  - rewrite map_map. reflexivity.
  - rewrite map_map. apply map_ext. intros e. cbn. now rewrite map_map.
Qed.

Lemma chunk_payloads_carry_the_batch_in_order_witness :
  map cls_pb2.time
    (concat (map (fun chunk =>
                    payload_logs (_build_log_group_list [] None chunk))
               (batch_chunks config_chunks_of_2
                  [bare_entry 1; bare_entry 2; bare_entry 3])))
  = [1; 2; 3].
Proof.
  rewrite (proj1 (chunk_payloads_carry_the_batch_in_order
                    config_chunks_of_2 [] None
                    [bare_entry 1; bare_entry 2; bare_entry 3]
                    ltac:(cbn; lia))).
  reflexivity.
Defined.

Lemma report_key_rename fm key : report_key (Some fm) key = rename fm key.
Proof.
  unfold report_key, rename, dict_get_default, dict_has, truthy.
  destruct fm as [|kv fm]; [reflexivity|].
  cbn [andb]. now destruct (dict_get (kv :: fm) key).
Qed.

(** X13: without a field map ([None] or an empty dict) the payload carries
    every field under its own key: each log's contents are the entry's
    fields, unchanged and in order. *)
Theorem payload_without_field_map_is_verbatim :
  forall source fm entries,
    truthy fm = false ->
    payload_logs (_build_log_group_list source fm entries)
    = map (fun e => {| cls_pb2.time := timestamp_us e;
                       cls_pb2.contents := fields e |}) entries.
Proof.
  intros source fm entries Hfm. rewrite payload_logs_build.
  apply map_ext. intros e. unfold build_log. f_equal.
  rewrite <- (map_id (fields e)) at 2. apply map_ext. intros [k v].
  cbn [fst snd]. f_equal.
  destruct fm as [[|kv fm]|]; try discriminate; reflexivity.
Qed.

Lemma payload_without_field_map_is_verbatim_witness :
  payload_logs
    (_build_log_group_list (lit "10.0.0.1") (Some [])
       [LogEntry_init 7 [(MSG_KEY, lit "hi")] 0])
  = [{| cls_pb2.time := 7; cls_pb2.contents := [(MSG_KEY, lit "hi")] |}].
Proof.
  apply (payload_without_field_map_is_verbatim (lit "10.0.0.1") (Some [])
           [LogEntry_init 7 [(MSG_KEY, lit "hi")] 0] eq_refl).
Defined.

(** * handler.py: the field map *)

Lemma dict_set_length {V : Type} (d : dict V) k v :
  (length (dict_set k v d) <= S (length d))%nat.
Proof.
  induction d as [|[k' v'] d IH]; cbn [dict_set length]; [lia|].
  destruct (str_eqb k' k); cbn [length]; lia.
Qed.

Lemma rekey_length {V : Type} (g : str -> str) (items : dict V) :
  forall m,
    (length (fold_left
               (fun mapped kv => dict_set (g (fst kv)) (snd kv) mapped)
               items m)
     <= length m + length items)%nat.
Proof.
  induction items as [|kv items IH]; intros m; cbn [fold_left length];
    [lia|].
  specialize (IH (dict_set (g (fst kv)) (snd kv) m)).
  pose proof (dict_set_length m (g (fst kv)) (snd kv)). lia.
Qed.

(** X14: what [_apply_field_map] does to the fields.  Without a field map
    it returns them as they are.  With one, each key is looked up in the
    map and kept when absent from it; a renamed key holds the value of the
    last field renamed to it, so no field is added and colliding fields
    merge; when the renamed keys are pairwise distinct nothing is lost:
    the result is the fields in their order, each under its new key. *)
Theorem apply_field_map_renames_keys :
  forall fm fields,
    _apply_field_map None fields = fields
    /\ _apply_field_map (Some []) fields = fields
    /\ (fm <> [] ->
        (forall k, dict_get (_apply_field_map (Some fm) fields) k
                   = last_value (rename fm) fields k)
        /\ (length (_apply_field_map (Some fm) fields)
            <= length fields)%nat
        /\ (NoDup (map (fun kv => rename fm (fst kv)) fields) ->
            _apply_field_map (Some fm) fields
            = map (fun kv => (rename fm (fst kv), snd kv)) fields)).
Proof.
  intros fm fields. split; [reflexivity|]. split; [reflexivity|].
  intros Hne. destruct fm as [|kv fm]; [contradiction|].
  cbn [_apply_field_map]. fold (rename (kv :: fm)).
  change (fun mapped kv0 =>
            dict_set (dict_get_default (kv :: fm) (fst kv0) (fst kv0))
              (snd kv0) mapped)
    with (fun mapped (kv0 : str * str) =>
            dict_set (rename (kv :: fm) (fst kv0)) (snd kv0) mapped).
  split; [|split].
  - intros k. rewrite rekey_lookup. cbn [dict_get].
    now destruct (last_value (rename (kv :: fm)) fields k).
  - apply (rekey_length (rename (kv :: fm)) fields []).
  - intros Hnd. now rewrite rekey_fresh.
Qed.

Lemma apply_field_map_renames_keys_witness :
  _apply_field_map (Some [(LEVEL_KEY, lit "log_level")])
    [(LEVEL_KEY, lit "INFO"); (MSG_KEY, lit "hi")]
  = [(lit "log_level", lit "INFO"); (MSG_KEY, lit "hi")].
Proof.
  apply (proj2 (proj2 (proj2 (proj2 (apply_field_map_renames_keys
           [(LEVEL_KEY, lit "log_level")]
           [(LEVEL_KEY, lit "INFO"); (MSG_KEY, lit "hi")]))
           ltac:(discriminate)))).
  repeat constructor; cbn; intuition discriminate.
Defined.

Lemma rename_twice fm k :
  chain_free fm -> rename fm (rename fm k) = rename fm k.
Proof.
  intros Hfree. destruct (dict_get fm k) as [v|] eqn:E.
  - assert (Hk : rename fm k = v)
      by (unfold rename, dict_get_default; now rewrite E).
    rewrite Hk. now apply (Hfree k v).
  - assert (Hk : rename fm k = k)
      by (unfold rename, dict_get_default; now rewrite E).
    now rewrite !Hk.
Qed.

(** X15: the handler renames the fields with the field map and the
    producer, built from the same configuration, renames them again when
    it builds the payload.  When no name the map renames to is itself
    renamed, the second renaming changes nothing: the contents sent are
    the handler's fields. *)
Theorem renaming_twice_is_renaming_once :
  forall fm fs ts,
    chain_free fm ->
    let handled := _apply_field_map (Some fm) fs in
    cls_pb2.contents (build_log (Some fm) (LogEntry_init ts handled 0))
    = handled.
Proof.
  intros fm fs ts Hfree handled. unfold build_log. cbn [cls_pb2.contents
    LogEntry_init fields].
  rewrite <- (map_id handled) at 2. apply map_ext_in. intros [k v] Hin.
  cbn [fst snd]. f_equal. rewrite report_key_rename.
  destruct fm as [|kv fm]; [reflexivity|].
  assert (Hk : In k (dict_keys handled)).
  { unfold dict_keys. apply (in_map fst) in Hin. exact Hin. }
  unfold handled in Hk. cbn [_apply_field_map] in Hk.
  apply (rekey_keys (rename (kv :: fm)) fs [] k) in Hk.
  destruct Hk as [[]|(kv0 & _ & ->)]. now apply rename_twice.
Qed.

Lemma renaming_twice_is_renaming_once_witness :
  cls_pb2.contents
    (build_log (Some [(LEVEL_KEY, lit "log_level")])
       (LogEntry_init 0
          (_apply_field_map (Some [(LEVEL_KEY, lit "log_level")])
             [(LEVEL_KEY, lit "INFO")]) 0))
  = [(lit "log_level", lit "INFO")].
Proof.
  apply (renaming_twice_is_renaming_once [(LEVEL_KEY, lit "log_level")]
           [(LEVEL_KEY, lit "INFO")] 0).
  intros k v H. cbn [dict_get] in H.
  destruct (str_eqb LEVEL_KEY k); [|discriminate].
  injection H as <-. reflexivity.
Defined.

(** X16: a field map with a chain renames twice.  If the map sends key
    [k] to [v] and [v] on to [w], a record's field [k] leaves the handler
    under [v] and reaches the sink under [w]. *)
Theorem chained_field_map_renames_twice :
  forall fm k v w x ts,
    dict_get fm k = Some v ->
    dict_get fm v = Some w ->
    _apply_field_map (Some fm) [(k, x)] = [(v, x)]
    /\ cls_pb2.contents
         (build_log (Some fm)
            (LogEntry_init ts (_apply_field_map (Some fm) [(k, x)]) 0))
       = [(w, x)].
Proof.
  intros fm k v w x ts Hk Hv.
  assert (E : _apply_field_map (Some fm) [(k, x)] = [(v, x)]).
  { destruct fm as [|kv fm]; [discriminate|].
    cbn [_apply_field_map fold_left fst snd dict_set].
    unfold dict_get_default. now rewrite Hk. }
  rewrite E. split; [reflexivity|].
  unfold build_log. cbn [cls_pb2.contents LogEntry_init fields map fst snd].
  rewrite report_key_rename. unfold rename, dict_get_default.
  now rewrite Hv.
Qed.

Lemma chained_field_map_renames_twice_witness :
  cls_pb2.contents
    (build_log (Some [(LEVEL_KEY, MSG_KEY); (MSG_KEY, lit "message")])
       (LogEntry_init 0
          (_apply_field_map
             (Some [(LEVEL_KEY, MSG_KEY); (MSG_KEY, lit "message")])
             [(LEVEL_KEY, lit "INFO")]) 0))
  = [(lit "message", lit "INFO")].
Proof.
  apply (proj2 (chained_field_map_renames_twice
                  [(LEVEL_KEY, MSG_KEY); (MSG_KEY, lit "message")]
                  LEVEL_KEY MSG_KEY (lit "message") (lit "INFO") 0
                  eq_refl eq_refl)).
Defined.

(** * handler.py: from a record to fields *)

Lemma dict_has_get {V : Type} (d : dict V) k :
  dict_has d k = false <-> dict_get d k = None.
Proof.
  unfold dict_has. destruct (dict_get d k); split; congruence.
Qed.

(** Adding only what is missing: keys already there keep their value, a
    new key gets the value of its first item. *)
Lemma add_missing_lookup keep (items : dict str) :
  forall fields k,
    dict_get (add_missing keep items fields) k
    = match dict_get fields k with
      | Some v => Some v
      | None => if keep k then dict_get items k else None
      end.
Proof.
  unfold add_missing.
  induction items as [|[k1 v1] items IH]; intros fields k;
    cbn [fold_left fst snd].
  - destruct (dict_get fields k), (keep k); reflexivity.
  - rewrite IH. cbn [dict_get].
    destruct (str_eqb k1 k) eqn:E.
    + apply str_eqb_eq in E. subst k1.
      unfold dict_has. destruct (dict_get fields k) as [v|] eqn:Ek.
      * rewrite andb_false_r. now rewrite Ek.
      * rewrite andb_true_r. destruct (keep k).
        -- now rewrite dict_get_set_same.
        -- now rewrite Ek.
    + apply str_eqb_neq in E.
      destruct (keep k1 && negb (dict_has fields k1)); [|reflexivity].
      now rewrite dict_get_set_other.
Qed.

(** X17: which value a record's field gets, before any renaming.  The six
    standard fields (time, level, message, caller, function, logger name)
    always hold the record's own values; on an exception [StackTrace] holds
    the traceback; any other key holds its context value if the context
    has one, and otherwise the record attribute of that name unless the
    name is one of the built-in attributes.  So neither context fields nor
    extra attributes can overwrite a standard field, and extras cannot
    overwrite context fields. *)
Theorem record_fields_precedence :
  forall int_str fm ctx msg log_time record,
    truthy fm = false ->
    (forall k,
        dict_get (_record_to_fields int_str fm ctx msg log_time record) k
        = reported_value int_str ctx msg log_time record k)
    /\ dict_get (_record_to_fields int_str fm ctx msg log_time record)
         MSG_KEY = Some msg
    /\ dict_get (_record_to_fields int_str fm ctx msg log_time record)
         LEVEL_KEY = Some (logging.levelname record).
Proof.
  intros int_str fm ctx msg log_time record Hfm.
  assert (G : forall k,
    dict_get (_record_to_fields int_str fm ctx msg log_time record) k
    = reported_value int_str ctx msg log_time record k).
  { intros k. unfold _record_to_fields, reported_value. rewrite Hfm.
    cbv zeta. rewrite add_missing_lookup.
    assert (Hexc : forall d : dict str,
      dict_get match logging.exc_info record with
               | Some tb => dict_set STACKTRACE_KEY tb d
               | None => d
               end k
      = match logging.exc_info record with
        | Some tb =>
            if str_eqb STACKTRACE_KEY k then Some tb else dict_get d k
        | None => dict_get d k
        end).
    { intros d. destruct (logging.exc_info record) as [tb|]; [|reflexivity].
      destruct (str_eqb STACKTRACE_KEY k) eqn:E.
      - apply str_eqb_eq in E. subst k. apply dict_get_set_same.
      - apply str_eqb_neq in E. now apply dict_get_set_other. }
    rewrite Hexc, add_missing_lookup.
    match goal with
    | |- context [dict_get (fold_left ?f ?l []) k] =>
        change (fold_left f l []) with l
    end.
    destruct (str_in k _BUILTIN_ATTRS); reflexivity. }
  split; [exact G|]. split; rewrite G; unfold reported_value; cbv zeta.
  - change (dict_get _ MSG_KEY) with (Some msg) at 1.
    destruct (logging.exc_info record); reflexivity.
  - change (dict_get _ LEVEL_KEY) with (Some (logging.levelname record))
      at 1.
    destruct (logging.exc_info record); reflexivity.
Qed.

Lemma record_fields_precedence_witness :
  let record :=
    {| logging.name := Some (lit "svc");
       logging.levelname := lit "INFO";
       logging.filename := lit "app.py";
       logging.lineno := 7;
       logging.funcName := None;
       logging.exc_info := None;
       logging.__dict__ :=
         [(lit "msg", lit "raw"); (MSG_KEY, lit "spoof");
          (lit "request_id", lit "abc")] |} in
  dict_get
    (_record_to_fields (fun _ => lit "7") None
       [(MSG_KEY, lit "ctx"); (lit "nodeID", lit "n1")]
       (lit "hello") (lit "2024-01-01 00:00:00") record) MSG_KEY
  = Some (lit "hello").
Proof.
  intros record.
  apply (proj1 (proj2 (record_fields_precedence (fun _ => lit "7") None
                         [(MSG_KEY, lit "ctx"); (lit "nodeID", lit "n1")]
                         (lit "hello") (lit "2024-01-01 00:00:00") record
                         eq_refl))).
Defined.

(** * config.py *)

(** X18: [validate] accepts a configuration exactly when its four required
    fields are all non-empty; otherwise it raises [ValueError], and the
    names it reports are those of the empty fields. *)
Theorem validate_accepts_iff_required_present :
  forall c,
    (validate c = Ok tt
     <-> topic_id c <> [] /\ host c <> [] /\ secret_id c <> []
         /\ secret_key c <> [])
    /\ (validate c <> Ok tt -> validate c = Raise ValueError)
    /\ (In (lit "topic_id") (validate_missing c) <-> topic_id c = [])
    /\ (In (lit "host") (validate_missing c) <-> host c = [])
    /\ (In (lit "secret_id") (validate_missing c) <-> secret_id c = [])
    /\ (In (lit "secret_key") (validate_missing c) <-> secret_key c = []).
Proof.
  intros [t h i k]. unfold validate, validate_missing.
  cbn [topic_id host secret_id secret_key].
  destruct t as [|t0 t], h as [|h0 h], i as [|i0 i], k as [|k0 k];
    cbn [app]; repeat split; intros; try discriminate; try congruence;
    try tauto;
    repeat match goal with
           | H : _ /\ _ |- _ => destruct H
           | H : In _ _ |- _ => destruct H as [H|H]; try discriminate
           | H : ?x <> ?x |- _ => contradiction H; reflexivity
           | |- In _ _ => cbn; tauto
           end; try contradiction.
Qed.

Lemma dict_get_filter {V : Type} (P : str -> bool) (d : dict V) k :
  dict_get (filter (fun kv => P (fst kv)) d) k
  = if P k then dict_get d k else None.
Proof.
  induction d as [|[k' v'] d IH]; cbn [filter dict_get fst].
  - now destruct (P k).
  - destruct (str_eqb k' k) eqn:E.
    + apply str_eqb_eq in E. subst k'.
      destruct (P k) eqn:Ek; cbn [dict_get].
      * now rewrite str_eqb_refl.
      * rewrite IH. try rewrite Ek. reflexivity.
    + destruct (P k'); cbn [dict_get]; [rewrite E|]; apply IH.
Qed.

(** X19: which constructor argument a dictionary key feeds.  [from_dict]
    passes a value for a field exactly when some key of the dictionary
    names that field, directly or through its alias
    ([total_size_ln_bytes], [max_send_worker_count]); the value is that of
    the last such key.  Every argument it passes names a dataclass field:
    unknown keys are dropped, not rejected. *)
Theorem from_dict_takes_last_named_value :
  forall (V : Type) (d : dict V),
    (forall f,
        dict_get (from_dict_kwargs d) f
        = if str_in f dataclass_fields
          then last_value (rename _alias) d f
          else None)
    /\ Forall (fun k => str_in k dataclass_fields = true)
         (dict_keys (from_dict_kwargs d)).
Proof.
  intros V d. split.
  - intros f. unfold from_dict_kwargs. cbv zeta.
    rewrite (dict_get_filter (fun k => str_in k dataclass_fields)).
    destruct (str_in f dataclass_fields); [|reflexivity].
    change (fun mapped (kv : str * V) =>
              dict_set (dict_get_default _alias (fst kv) (fst kv))
                (snd kv) mapped)
      with (fun mapped (kv : str * V) =>
              dict_set (rename _alias (fst kv)) (snd kv) mapped).
    rewrite rekey_lookup. cbn [dict_get].
    now destruct (last_value (rename _alias) d f).
  - unfold from_dict_kwargs, dict_keys. cbv zeta.
    apply Forall_forall. intros k Hin. apply in_map_iff in Hin.
    destruct Hin as ([k' v] & <- & Hin). apply filter_In in Hin.
    apply Hin.
Qed.

(** * __init__.py *)

(** X20: after setup the target logger never filters out a record the
    handler would accept: its level is at most the handler's level.  A
    level that was set and already low enough is left alone. *)
Theorem logger_level_at_most_handler_level :
  forall logger_level level,
    logger_level_after logger_level level <= level
    /\ (logger_level <> logging.NOTSET -> logger_level <= level ->
        logger_level_after logger_level level = logger_level)
    /\ (logger_level = logging.NOTSET \/ level < logger_level ->
        logger_level_after logger_level level = level).
Proof.
  intros old level. unfold logger_level_after, logging.NOTSET.
  destruct (Z.eqb_spec old 0), (Z.ltb_spec level old); cbn [orb];
    repeat split; intros; try lia.
  all: try (destruct H; lia).
Qed.

(** X21: setting context fields overwrites and adds, and drops nothing: a
    key among the arguments holds the (last) value given for it, every
    other key holds what it held before. *)
Theorem set_context_fields_overrides_given_keys :
  forall kwargs ctx k,
    dict_get (set_context_fields kwargs ctx) k
    = match last_value (fun key => key) kwargs k with
      | Some v => Some v
      | None => dict_get ctx k
      end.
Proof.
  intros kwargs ctx k. unfold set_context_fields.
  apply (rekey_lookup (fun key => key) kwargs ctx k).
Qed.

Lemma batch_totals_follow_entries_witness :
  _Batch.is_empty (fold_left _Batch.add [] _Batch.empty) = true.
Proof.
  apply (proj2 (proj2 (proj2 (batch_totals_follow_entries [])))).
  reflexivity.
Defined.

Lemma validate_accepts_iff_required_present_witness :
  validate {| topic_id := lit "t"; host := lit "h"; secret_id := lit "i";
              secret_key := lit "k" |} = Ok tt
  /\ validate {| topic_id := lit "t"; host := []; secret_id := lit "i";
                 secret_key := lit "k" |} = Raise ValueError.
Proof.
  split.
  - apply (proj1 (validate_accepts_iff_required_present _)).
    repeat split; discriminate.
  - apply (proj1 (proj2 (validate_accepts_iff_required_present _))).
    discriminate.
Defined.

Lemma from_dict_takes_last_named_value_witness :
  dict_get
    (from_dict_kwargs
       [(lit "total_size_bytes", 1); (lit "no_such_field", 2);
        (lit "total_size_ln_bytes", 3)])
    (lit "total_size_bytes")
  = Some 3.
Proof.
  rewrite (proj1 (from_dict_takes_last_named_value Z _)). reflexivity.
Defined.

Lemma logger_level_at_most_handler_level_witness :
  logger_level_after 30 10 = 10 /\ logger_level_after 5 10 = 5.
Proof.
  split.
  - apply (proj2 (proj2 (logger_level_at_most_handler_level 30 10))).
    right. reflexivity.
  - apply (proj1 (proj2 (logger_level_at_most_handler_level 5 10)));
      [discriminate|]. cbn. discriminate.
Defined.

(** * Blocking admission *)









(** X24: a waiting sender that wakes to find room is admitted, however
    late.  With a positive block duration, if the buffer had no room at
    the call but has room when the first wake-up comes (a drain by another
    thread, say), the entry is appended to the buffer found then and
    [send] returns [True], even when the clock is already past the
    deadline: room is tested before the clock. *)
Theorem woken_sender_with_room_is_admitted :
  forall cfg fs ts w ws p,
    _closed p = false ->
    0 < max_block_sec cfg ->
    total_size_bytes cfg < _buffer_size p + size (entry_of fs ts p) ->
    _buffer_size (w p) + size (entry_of fs ts p) <= total_size_bytes cfg ->
    fst (send cfg fs ts (w :: ws) p) = Return true
    /\ _buffer (snd (send cfg fs ts (w :: ws) p))
       = _buffer (w p) ++ [entry_of fs ts p]
    /\ drop_count (stats (snd (send cfg fs ts (w :: ws) p)))
       = drop_count (stats (w p)).
Proof.
  intros cfg fs ts w ws p Hopen Hblock Hfull Hroom.
  destruct (send_append_spec cfg (entry_of fs ts p) (w p))
    as (q' & E & Hb & _ & _ & Hst & _).
  assert (Es : send cfg fs ts (w :: ws) p = (Return true, q')).
  { unfold send. unfold bind at 1. unfold get. rewrite Hopen.
    fold (entry_of fs ts p). unfold bind at 1.
    unfold send_admission, overflows.
    destruct (Z.ltb_spec (total_size_bytes cfg)
                (_buffer_size p + size (entry_of fs ts p))); [|lia].
    destruct (Z.leb_spec (max_block_sec cfg) 0); [lia|].
    cbn [length send_wait]. unfold overflows.
    destruct (Z.ltb_spec (total_size_bytes cfg)
                (_buffer_size p + size (entry_of fs ts p))); [|lia].
    destruct (Z.leb_spec
                (monotonic_us p + max_block_sec cfg * 1000000
                 - monotonic_us p) 0); [lia|].
    cbn [wait_not_full].
    destruct (Z.ltb_spec (total_size_bytes cfg)
                (_buffer_size (w p) + size (entry_of fs ts p))); [lia|].
    unfold bind. rewrite E. reflexivity. }
  rewrite Es. cbn [fst snd]. unfold stats. rewrite Hst. auto.
Qed.

Lemma woken_sender_with_room_is_admitted_witness :
  let cfg := {| total_size_bytes := 500; max_send_workers := 50;
                max_block_sec := 3; max_batch_size := 5242880;
                max_batch_count := 4096; linger_ms := 2000; retries := 10;
                base_retry_backoff_ms := 100;
                max_retry_backoff_ms := 50000 |} in
  let p := snd (send cfg fields_400 None [] (AsyncProducer_init 0 0)) in
  fst (send cfg fields_400 None
         [fun q => set_monotonic 9000000 (drained q)] p)
  = Return true.
Proof.
  intros cfg p.
  apply (proj1 (woken_sender_with_room_is_admitted cfg fields_400 None
                  (fun q => set_monotonic 9000000 (drained q)) [] p
                  eq_refl eq_refl eq_refl
                  ltac:(vm_compute; discriminate))).
Defined.

(** ** Waking the flush thread after an admission *)




(** * Invariants of every run *)

Section DispatchSteps.

Variable cfg : CLSConfig.
Variable sink : nat -> put_result.
Variable J : AsyncProducer -> Prop.
Variable allowed : list LogEntry -> Prop.
Hypothesis J_put :
  forall chunk p, allowed chunk -> J p ->
                  J (set_put_calls (put_calls p ++ [chunk]) p).
Hypothesis J_delivered :
  forall chunk p, allowed chunk -> J p -> J (chunk_delivered chunk p).
Hypothesis J_failed :
  forall p, J p -> J (set_stats (incr_fail (_stats p)) p).
Hypothesis J_slept :
  forall ms p, J p ->
    J (set_monotonic (monotonic_us p + ms * 1000)
         (set_slept_ms (slept_ms p ++ [ms]) p)).

Lemma _send_chunk_loop_keeps chunk :
  allowed chunk ->
  forall attempts b p,
    J p -> J (snd (_send_chunk_loop cfg sink attempts b chunk p)).
Proof.
  intros Hchunk. induction attempts as [|attempt rest IH]; intros b p Hp.
  - cbn. now apply J_failed.
  - rewrite _send_chunk_loop_step. cbv zeta.
    assert (Hfail : J (chunk_failed chunk p)).
    { unfold chunk_failed.
      apply (J_failed (set_put_calls (put_calls p ++ [chunk]) p)).
      now apply J_put. }
    destruct (classify (sink (length (put_calls p))));
      [now apply J_delivered| |exact Hfail].
    destruct (retries cfg <=? attempt); [exact Hfail|].
    unfold bind, sleep_ms. destruct (b <? 0); [now apply J_put|].
    apply IH. apply J_slept. now apply J_put.
Qed.

Lemma for_each_chunks_keeps chunks :
  Forall allowed chunks ->
  forall p, J p -> J (snd (for_each chunks (_send_chunk cfg sink) p)).
Proof.
  induction 1 as [|chunk chunks Hc _ IH]; intros p Hp; [exact Hp|].
  cbn [for_each]. unfold bind.
  assert (Hq : J (snd (_send_chunk cfg sink chunk p))).
  { unfold _send_chunk. destruct (range 0 (retries cfg + 1) 1); [|exact Hp].
    now apply _send_chunk_loop_keeps. }
  destruct (_send_chunk cfg sink chunk p) as [[[]| |] q]; cbn [snd] in *;
    auto.
Qed.

End DispatchSteps.

Lemma _send_batch_for_each cfg sink entries p :
  max_batch_count cfg <> 0 ->
  _send_batch cfg sink entries p
  = for_each (batch_chunks cfg entries) (_send_chunk cfg sink) p.
Proof.
  intros Hs. unfold _send_batch, batch_chunks, range.
  destruct (Z.eqb_spec (max_batch_count cfg) 0); [contradiction|].
  rewrite !for_each_map. reflexivity.
Qed.

Section RunInvariant.

Variable cfg : CLSConfig.
Variable sink : nat -> put_result.
Variable J : AsyncProducer -> Prop.
Hypothesis J_batch :
  forall entries p, J p -> J (snd (_send_batch cfg sink entries p)).
Hypothesis J_drained : forall p, J p -> J (drained p).
Hypothesis J_held : forall l p, J p -> J (set_in_flight l p).
Hypothesis J_drop : forall p, J p -> J (drop_entry p).
Hypothesis J_clock : forall t p, J p -> J (set_monotonic t p).
Hypothesis J_append :
  forall entry p q,
    J p -> send_append cfg entry p = (Return tt, q) -> J q.
Hypothesis J_closing :
  forall p, J p ->
    J (set_flush_notified (flush_notified p + 1) (set_closed true p)).

Lemma send_wait_keeps entry deadline :
  forall fuel ws q,
    wakeups_keep J ws -> J q ->
    J (snd (send_wait cfg fuel entry deadline ws q)).
Proof.
  induction fuel as [|fuel IH]; intros ws q Hws Hq;
    cbn [send_wait]; destruct (overflows cfg entry q); cbn [snd]; auto;
    destruct (deadline - monotonic_us q <=? 0); cbn [snd]; auto.
  destruct ws as [|w ws]; cbn [wait_not_full].
  - apply IH; auto.
  - inversion Hws; subst. apply IH; auto.
Qed.

Lemma send_keeps fs ts ws p :
  wakeups_keep J ws -> J p -> J (snd (send cfg fs ts ws p)).
Proof.
  intros Hws Hp. unfold send. unfold bind at 1. unfold get.
  destruct (_closed p); [exact Hp|].
  fold (entry_of fs ts p). set (e := entry_of fs ts p).
  assert (Ha : J (snd (send_admission cfg e ws p))).
  { unfold send_admission. destruct (overflows cfg e p); auto.
    destruct (max_block_sec cfg <=? 0); cbn [snd]; auto.
    now apply send_wait_keeps. }
  unfold bind at 1.
  destruct (send_admission cfg e ws p) as [[[|]| |] q]; cbn [snd] in *;
    auto.
  destruct (send_append_spec cfg e q) as (q' & E & _).
  unfold bind. rewrite E. cbn [snd ret]. now apply (J_append e q q').
Qed.

Lemma flush_keeps p : J p -> J (snd (flush cfg sink p)).
Proof.
  intros Hp. unfold flush, bind, _drain_buffer.
  destruct (_buffer p) as [|e es]; [exact Hp|].
  apply J_batch. exact (J_drained p Hp).
Qed.

Lemma _flush_loop_drain_keeps p : J p -> J (_flush_loop_drain p).
Proof.
  intros Hp.
  destruct (_flush_loop_drain_cases p) as [E|(_ & _ & E)]; rewrite E;
    [exact Hp|].
  now apply J_held, J_drained.
Qed.

Lemma _flush_loop_send_keeps p : J p -> J (_flush_loop_send cfg sink p).
Proof.
  intros Hp.
  destruct (_flush_loop_send_cases cfg sink p) as [E|(_ & E)]; rewrite E;
    [exact Hp|].
  now apply J_held, J_batch.
Qed.

Lemma run_calls_keep cs :
  calls_keep J cs -> forall p, J p -> J (run_calls cfg sink cs p).
Proof.
  induction 1 as [|c cs Hc _ IH]; intros p Hp; [exact Hp|].
  cbn [run_calls fold_left]. apply IH.
  destruct c as [fs ts ws| |t fp| | |]; cbn [run_call].
  - now apply send_keeps.
  - now apply flush_keeps.
  - destruct (_closed p) eqn:Hcl.
    + now rewrite close_closed.
    + rewrite close_running by assumption. apply flush_keeps.
      apply (closing_keeps cfg sink J).
      * exact (J_closing p Hp).
      * apply _flush_loop_drain_keeps.
      * apply _flush_loop_send_keeps.
  - now apply flush_keeps.
  - now apply _flush_loop_drain_keeps.
  - now apply _flush_loop_send_keeps.
Qed.

End RunInvariant.

Lemma len_app {A : Type} (l l' : list A) : len (l ++ l') = len l + len l'.
Proof. unfold len. rewrite length_app. lia. Qed.

Lemma _send_batch_counts_match cfg sink entries p :
  counts_match_deliveries p ->
  counts_match_deliveries (snd (_send_batch cfg sink entries p)).
Proof.
  intros Hp. unfold _send_batch.
  destruct (range 0 (len entries) (max_batch_count cfg)) as [starts|];
    [|exact Hp].
  rewrite <- (for_each_map (fun i => slice entries i
                                      (i + max_batch_count cfg))
                (_send_chunk cfg sink)).
  apply (for_each_chunks_keeps cfg sink counts_match_deliveries
           (fun _ => True)); auto.
  - intros chunk q _ [H1 H2]. unfold counts_match_deliveries. cbn.
    rewrite concat_app, !len_app. cbn [concat]. rewrite app_nil_r.
    unfold len in *. cbn [length]. lia.
  - apply Forall_forall. auto.
Qed.

(** X25: the success counters tell what the sink accepted.  After any run
    of calls on a fresh producer, with any sink and any configuration,
    [log_count] is the number of entries in the chunks the sink accepted
    and [send_success] is the number of those chunks (other threads
    keeping this while a sender waits). *)
Theorem success_counters_match_deliveries :
  forall cfg sink cs mono wall,
    calls_keep counts_match_deliveries cs ->
    counts_match_deliveries
      (run_calls cfg sink cs (AsyncProducer_init mono wall)).
Proof.
  intros cfg sink cs mono wall Hcs.
  apply (run_calls_keep cfg sink counts_match_deliveries); auto.
  - intros entries p. apply _send_batch_counts_match.
  - intros entry p q Hp E.
    destruct (send_append_spec cfg entry p) as (q' & E' & _ & _ & _ & Hst
                                                 & _ & Hd).
    rewrite E in E'. injection E' as <-.
    unfold counts_match_deliveries. now rewrite Hst, Hd.
  - split; reflexivity.
Qed.

Lemma success_counters_match_deliveries_witness :
  counts_match_deliveries
    (run_calls config_chunks_of_2 sink_always_unauthorized
       [CallSend fields_400 None []; CallFlush; CallClose 60000 true]
       (AsyncProducer_init 0 0)).
Proof.
  apply (success_counters_match_deliveries config_chunks_of_2
           sink_always_unauthorized).
  repeat constructor.
Defined.

Lemma _send_batch_chunks_well_sized cfg sink entries p :
  1 <= max_batch_count cfg ->
  chunks_well_sized cfg p ->
  chunks_well_sized cfg (snd (_send_batch cfg sink entries p)).
Proof.
  intros Hs Hp. rewrite _send_batch_for_each by lia.
  apply (for_each_chunks_keeps cfg sink (chunks_well_sized cfg)
           (fun chunk => 1 <= len chunk <= max_batch_count cfg)); auto.
  - intros chunk q Hc Hq. unfold chunks_well_sized. cbn.
    now apply Forall_snoc.
  - intros chunk q Hc Hq. unfold chunks_well_sized. cbn.
    now apply Forall_snoc.
  - now apply batch_chunks_cover.
Qed.

(** X26: the sink never receives an empty chunk, nor one above the
    maximum.  With a chunk size of at least one, in any run of calls on a
    fresh producer every chunk handed to [put_log_raw], first attempts and
    retries alike, holds between one and [max_batch_count] entries. *)
Theorem sink_receives_well_sized_chunks :
  forall cfg sink cs mono wall,
    1 <= max_batch_count cfg ->
    calls_keep (chunks_well_sized cfg) cs ->
    chunks_well_sized cfg
      (run_calls cfg sink cs (AsyncProducer_init mono wall)).
Proof.
  intros cfg sink cs mono wall Hs Hcs.
  apply (run_calls_keep cfg sink (chunks_well_sized cfg)); auto.
  - intros entries p. now apply _send_batch_chunks_well_sized.
  - intros entry p q Hp E.
    destruct (send_append_spec cfg entry p) as (q' & E' & _ & _ & _ & _
                                                 & Hpc & _).
    rewrite E in E'. injection E' as <-.
    unfold chunks_well_sized. now rewrite Hpc.
  - constructor.
Qed.

Lemma sink_receives_well_sized_chunks_witness :
  chunks_well_sized config_chunks_of_2
    (run_calls config_chunks_of_2 sink_always_timeout
       [CallSend fields_400 None []; CallSend fields_400 None [];
        CallSend fields_400 None []; CallFlush]
       (AsyncProducer_init 0 0)).
Proof.
  apply (sink_receives_well_sized_chunks config_chunks_of_2
           sink_always_timeout); [cbn; lia|repeat constructor].
Defined.
